(** * factory-queue: the fetch/process scheduler of [factory-queue.js]

    A shallow embedding of [exports.fetchAndProcess] as an event-driven
    transition system.  The JavaScript closure variables become one [state]
    record; every callback that the source registers (the interval callback,
    the [then] handlers of the capability promises and of the two wrapper
    promises) becomes one [event], and [step] runs the body of that callback
    to completion, as the single-threaded event loop does. *)

From Stdlib Require Import ZArith QArith String Bool Lia List.
From stdpp Require Import base list.
Import ListNotations.

Local Open Scope Z_scope.

(** ** JavaScript values *)

(** Items and failure payloads are opaque JavaScript values.  Only their
    truthiness matters to the scheduler ([if(_err)], [_.isEmpty]). *)
#[local] Set Warnings "-register-all".

Inductive value : Type :=
| VUndefined
| VNull
| VBool (b : bool)
| VNum (n : Z)
| VStr (s : string)
| VObj (fields : list (string * value)).

Definition truthy (v : value) : bool :=
  match v with
  | VUndefined | VNull => false
  | VBool b => b
  | VNum n => negb (n =? 0)
  | VStr EmptyString => false
  | VStr _ => true
  | VObj _ => true
  end.

(** [total], [maxLimit] and [_timeEnd] hold either [false] or a number:
    [None] is [false]. *)
Definition truthyZ (o : option Z) : bool :=
  match o with
  | Some z => negb (z =? 0)
  | None => false
  end.

(** ToNumber, as applied by [==], [!=], [>], [>=] and [*] when one side is
    [false]. *)
Definition numZ (o : option Z) : Z :=
  match o with
  | Some z => z
  | None => 0
  end.

(** ** Options *)

Record fetchOptions : Type := mkFetchOptions {
  limit : Z;
  offset : Z;
  maxLimit : option Z;
  paged : bool;
  total : option Z;
  fetchTimeout : Z
}.

Record queueOptions : Type := mkQueueOptions {
  requestLimit : Z;
  processingLimit : Z;
  queueLimit : Z;
  maxRuntimeSeconds : Z;
  processTimeout : Z;
  processed : Z
}.

Definition default_fetchOptions : fetchOptions :=
  {| limit := 50; offset := 0; maxLimit := None; paged := false;
     total := None; fetchTimeout := 0 |}.

Definition default_queueOptions : queueOptions :=
  {| requestLimit := 1; processingLimit := 1; queueLimit := 1000;
     maxRuntimeSeconds := 15000; processTimeout := 0; processed := 0 |}.

(** The first argument of [fetchAndProcess]: an array or a function. *)
Inductive source : Type :=
| SrcArray (items : list value)
| SrcFunc.

Definition isArray (s : source) : bool :=
  match s with SrcArray _ => true | SrcFunc => false end.

Definition isFunction (s : source) : bool :=
  match s with SrcArray _ => false | SrcFunc => true end.

(** ** The promise returned to the caller *)

Record meta : Type := mkMeta {
  fetched : option Z;
  processedCount : Z;
  time : Q
}.

Inductive resolution : Type :=
| ResUndefined                       (* deferred.resolve() *)
| ResDone (m : meta).                (* { status: "done", fetched, processed, time } *)

Inductive rejection : Type :=
| RejError (error : value) (m : meta)  (* { error: _err, meta: {...} } *)
| RejTimeout.                          (* { type: "timeout", message: ... } *)

Inductive promiseState : Type :=
| Pending
| Resolved (r : resolution)
| Rejected (r : rejection).

Record notification : Type := mkNotification {
  n_offset : Z;
  n_queueSize : Z;
  n_processed : Z
}.

(** How a wrapper promise ([Q.defer()] inside [fetch]) was settled. *)
Inductive settlement : Type :=
| Fulfilled (items : list value)
| Failure (reason : value).

(** ** Run state *)

Record state : Type := mkState {
  fo : fetchOptions;                 (* _fetchOptions *)
  qo : queueOptions;                 (* _queueOptions *)
  _queue : list value;
  _timeStart : Z;
  _timeEnd : option Z;
  _requestsConcurrent : Z;
  _processingConcurrent : Z;
  _err : value;
  _fetchFunc : source;
  deferred : promiseState;           (* the outer deferred *)
  notifications : list notification; (* what deferred.notify delivered *)
  completeCheck : bool;              (* is the interval still armed? *)
  (* pending asynchronous work *)
  fetchCalls : list (Z * Z);         (* _fetchFunc(limit, offset, _) not yet settled *)
  fetchWrappers : list settlement;   (* settled wrappers of fetch(), callback not yet run *)
  procCalls : list value;            (* _processFunc(item) not yet settled *)
  procWrappers : nat                 (* resolved wrappers of process(), callback not yet run *)
}.

(** Field updates. *)
Definition set_total (t : option Z) (st : state) : state :=
  mkState (mkFetchOptions (limit (fo st)) (offset (fo st)) (maxLimit (fo st))
             (paged (fo st)) t (fetchTimeout (fo st)))
    (qo st) (_queue st) (_timeStart st) (_timeEnd st) (_requestsConcurrent st)
    (_processingConcurrent st) (_err st) (_fetchFunc st) (deferred st)
    (notifications st) (completeCheck st) (fetchCalls st) (fetchWrappers st)
    (procCalls st) (procWrappers st).

Definition set_offset (o : Z) (st : state) : state :=
  mkState (mkFetchOptions (limit (fo st)) o (maxLimit (fo st))
             (paged (fo st)) (total (fo st)) (fetchTimeout (fo st)))
    (qo st) (_queue st) (_timeStart st) (_timeEnd st) (_requestsConcurrent st)
    (_processingConcurrent st) (_err st) (_fetchFunc st) (deferred st)
    (notifications st) (completeCheck st) (fetchCalls st) (fetchWrappers st)
    (procCalls st) (procWrappers st).

Definition set_processed (p : Z) (st : state) : state :=
  mkState (fo st)
    (mkQueueOptions (requestLimit (qo st)) (processingLimit (qo st))
       (queueLimit (qo st)) (maxRuntimeSeconds (qo st)) (processTimeout (qo st)) p)
    (_queue st) (_timeStart st) (_timeEnd st) (_requestsConcurrent st)
    (_processingConcurrent st) (_err st) (_fetchFunc st) (deferred st)
    (notifications st) (completeCheck st) (fetchCalls st) (fetchWrappers st)
    (procCalls st) (procWrappers st).

Definition set_queue (q : list value) (st : state) : state :=
  mkState (fo st) (qo st) q (_timeStart st) (_timeEnd st) (_requestsConcurrent st)
    (_processingConcurrent st) (_err st) (_fetchFunc st) (deferred st)
    (notifications st) (completeCheck st) (fetchCalls st) (fetchWrappers st)
    (procCalls st) (procWrappers st).

Definition set_timeEnd (t : option Z) (st : state) : state :=
  mkState (fo st) (qo st) (_queue st) (_timeStart st) t (_requestsConcurrent st)
    (_processingConcurrent st) (_err st) (_fetchFunc st) (deferred st)
    (notifications st) (completeCheck st) (fetchCalls st) (fetchWrappers st)
    (procCalls st) (procWrappers st).

Definition set_requestsConcurrent (n : Z) (st : state) : state :=
  mkState (fo st) (qo st) (_queue st) (_timeStart st) (_timeEnd st) n
    (_processingConcurrent st) (_err st) (_fetchFunc st) (deferred st)
    (notifications st) (completeCheck st) (fetchCalls st) (fetchWrappers st)
    (procCalls st) (procWrappers st).

Definition set_processingConcurrent (n : Z) (st : state) : state :=
  mkState (fo st) (qo st) (_queue st) (_timeStart st) (_timeEnd st)
    (_requestsConcurrent st) n (_err st) (_fetchFunc st) (deferred st)
    (notifications st) (completeCheck st) (fetchCalls st) (fetchWrappers st)
    (procCalls st) (procWrappers st).

Definition set_err (e : value) (st : state) : state :=
  mkState (fo st) (qo st) (_queue st) (_timeStart st) (_timeEnd st)
    (_requestsConcurrent st) (_processingConcurrent st) e (_fetchFunc st)
    (deferred st) (notifications st) (completeCheck st) (fetchCalls st)
    (fetchWrappers st) (procCalls st) (procWrappers st).

Definition set_deferred (d : promiseState) (st : state) : state :=
  mkState (fo st) (qo st) (_queue st) (_timeStart st) (_timeEnd st)
    (_requestsConcurrent st) (_processingConcurrent st) (_err st) (_fetchFunc st)
    d (notifications st) (completeCheck st) (fetchCalls st)
    (fetchWrappers st) (procCalls st) (procWrappers st).

Definition set_notifications (ns : list notification) (st : state) : state :=
  mkState (fo st) (qo st) (_queue st) (_timeStart st) (_timeEnd st)
    (_requestsConcurrent st) (_processingConcurrent st) (_err st) (_fetchFunc st)
    (deferred st) ns (completeCheck st) (fetchCalls st)
    (fetchWrappers st) (procCalls st) (procWrappers st).

Definition set_completeCheck (b : bool) (st : state) : state :=
  mkState (fo st) (qo st) (_queue st) (_timeStart st) (_timeEnd st)
    (_requestsConcurrent st) (_processingConcurrent st) (_err st) (_fetchFunc st)
    (deferred st) (notifications st) b (fetchCalls st)
    (fetchWrappers st) (procCalls st) (procWrappers st).

Definition set_fetchCalls (l : list (Z * Z)) (st : state) : state :=
  mkState (fo st) (qo st) (_queue st) (_timeStart st) (_timeEnd st)
    (_requestsConcurrent st) (_processingConcurrent st) (_err st) (_fetchFunc st)
    (deferred st) (notifications st) (completeCheck st) l
    (fetchWrappers st) (procCalls st) (procWrappers st).

Definition set_fetchWrappers (l : list settlement) (st : state) : state :=
  mkState (fo st) (qo st) (_queue st) (_timeStart st) (_timeEnd st)
    (_requestsConcurrent st) (_processingConcurrent st) (_err st) (_fetchFunc st)
    (deferred st) (notifications st) (completeCheck st) (fetchCalls st)
    l (procCalls st) (procWrappers st).

Definition set_procCalls (l : list value) (st : state) : state :=
  mkState (fo st) (qo st) (_queue st) (_timeStart st) (_timeEnd st)
    (_requestsConcurrent st) (_processingConcurrent st) (_err st) (_fetchFunc st)
    (deferred st) (notifications st) (completeCheck st) (fetchCalls st)
    (fetchWrappers st) l (procWrappers st).

Definition set_procWrappers (n : nat) (st : state) : state :=
  mkState (fo st) (qo st) (_queue st) (_timeStart st) (_timeEnd st)
    (_requestsConcurrent st) (_processingConcurrent st) (_err st) (_fetchFunc st)
    (deferred st) (notifications st) (completeCheck st) (fetchCalls st)
    (fetchWrappers st) (procCalls st) n.

(** ** The outer deferred *)

(** Q ignores [resolve], [reject] and [notify] on a settled deferred. *)
Definition resolve (r : resolution) (st : state) : state :=
  match deferred st with
  | Pending => set_deferred (Resolved r) st
  | _ => st
  end.

Definition reject (r : rejection) (st : state) : state :=
  match deferred st with
  | Pending => set_deferred (Rejected r) st
  | _ => st
  end.

Definition notify (n : notification) (st : state) : state :=
  match deferred st with
  | Pending => set_notifications (notifications st ++ [n]) st
  | _ => st
  end.

Definition clearInterval (st : state) : state := set_completeCheck false st.

(** ** The two schedulers *)

(** [_fetchOptions.total && _queueOptions.processed == _fetchOptions.total],
    the first line of both [tryFetch] and [tryProcess]. *)
Definition allProcessed (st : state) : bool :=
  truthyZ (total (fo st)) && (processed (qo st) =? numZ (total (fo st))).

(** [_queue.length] *)
Definition queueLength (st : state) : Z := Z.of_nat (length (_queue st)).

(** [_fetchOptions.paged ? _fetchOptions.total + 1 : _fetchOptions.total] *)
Definition cursorBound (st : state) : Z :=
  if paged (fo st) then numZ (total (fo st)) + 1 else numZ (total (fo st)).

(** The left-hand side of the queue-limit test of [tryFetch]. *)
Definition projectedBacklog (st : state) : Z :=
  queueLength st + limit (fo st) * (_requestsConcurrent st + 1).

(** [fetch(limit, offset)]: create the wrapper and call the capability; the
    call stays pending until the event loop delivers its settlement. *)
Definition fetch (lim off : Z) (st : state) : state :=
  set_fetchCalls (fetchCalls st ++ [(lim, off)]) st.

(** [process(item)]: likewise for the process capability. *)
Definition process (item : value) (st : state) : state :=
  set_procCalls (procCalls st ++ [item]) st.

(** One admitted fetch of [tryFetch]: the three statements between the
    guards and the recursive call. *)
Definition issueFetch (st : state) : state :=
  let st1 := set_requestsConcurrent (_requestsConcurrent st + 1) st in
  let st2 := fetch (limit (fo st1)) (offset (fo st1)) st1 in
  set_offset (offset (fo st2) + (if paged (fo st2) then 1 else limit (fo st2))) st2.

(** [tryFetch] calls itself after every admitted fetch.  Each admission
    raises [_requestsConcurrent] by one and the recursion stops at
    [requestLimit], so it is bounded; the bound is supplied as fuel, and
    [tryFetch_unfold] below shows that [tryFetch] satisfies the recursive
    equation of the source function. *)
Fixpoint tryFetch_loop (fuel : nat) (now : Z) (st : state) : state :=
  match fuel with
  | O => st
  | S fuel' =>
    if allProcessed st then set_timeEnd (Some now) st
    else if truthy (_err st) then st
    else if _requestsConcurrent st >=? requestLimit (qo st) then st
    else if projectedBacklog st >=? queueLimit (qo st) then st
    else if truthyZ (total (fo st)) && (offset (fo st) >=? cursorBound st) then st
    else if truthyZ (maxLimit (fo st)) && (offset (fo st) >=? numZ (maxLimit (fo st))) then st
    else tryFetch_loop fuel' now (issueFetch st)
  end.

Definition tryFetch_fuel (st : state) : nat :=
  S (Z.to_nat (requestLimit (qo st) - _requestsConcurrent st)).

Definition tryFetch (now : Z) (st : state) : state :=
  tryFetch_loop (tryFetch_fuel st) now st.

(** One admitted item of [tryProcess]. *)
Definition issueProcess (item : value) (rest : list value) (st : state) : state :=
  let st1 := set_processingConcurrent (_processingConcurrent st + 1) st in
  process item (set_queue rest st1).

(** [tryProcess] calls itself after every admitted item; every admission
    shortens [_queue] by one, which bounds the recursion (see
    [tryProcess_unfold]). *)
Fixpoint tryProcess_loop (fuel : nat) (now : Z) (st : state) : state :=
  match fuel with
  | O => st
  | S fuel' =>
    if allProcessed st then set_timeEnd (Some now) st
    else if truthy (_err st) then st
    else match _queue st with
         | [] => st
         | item :: rest =>
           if _processingConcurrent st >=? processingLimit (qo st) then st
           else tryProcess_loop fuel' now (issueProcess item rest st)
         end
  end.

Definition tryProcess_fuel (st : state) : nat := S (length (_queue st)).

Definition tryProcess (now : Z) (st : state) : state :=
  tryProcess_loop (tryProcess_fuel st) now st.

(** ** Callbacks *)

(** The payload of [deferred.reject({ error: "Source is empty."})]. *)
Definition sourceEmpty : value :=
  VObj [("error"%string, VStr "Source is empty.")].

(** Success handler of [_fetchFunc(...).then] inside [fetch], for a
    well-formed response [{ total: rtotal, items: items }].  The wrapper it
    settles is queued in [fetchWrappers]: with or without [fetchTimeout], Q
    runs the callbacks of the wrapper in a later turn. *)
Definition fetch_onResponse (rtotal : Z) (items : list value) (st : state) : state :=
  let st1 :=
    if negb (truthyZ (total (fo st))) && truthyZ (maxLimit (fo st))
       && (rtotal >? numZ (maxLimit (fo st)))
    then set_total (maxLimit (fo st)) st else st in
  if negb (truthyZ (total (fo st1))) && (rtotal =? 0)
  then set_fetchWrappers (fetchWrappers st1 ++ [Failure sourceEmpty]) st1
  else
    let st2 := if negb (truthyZ (total (fo st1)))
               then set_total (Some rtotal) st1 else st1 in
    let st3 := if negb (numZ (total (fo st2)) =? rtotal)
               then set_total (Some rtotal) st2 else st2 in
    set_fetchWrappers (fetchWrappers st3 ++ [Fulfilled items]) st3.

(** Success handler of [fetch(...).then] inside [tryFetch]. *)
Definition tryFetch_onItems (now : Z) (items : list value) (st : state) : state :=
  let st1 := set_requestsConcurrent (_requestsConcurrent st - 1) st in
  let st2 := match items with
             | [] => st1
             | _ => set_queue (_queue st1 ++ items) st1
             end in
  tryFetch now (tryProcess now st2).

(** Success handler of [_processFunc(item).then] inside [process].  Both
    exits (the immediate [deferred.resolve()] and the [setTimeout]) resolve
    the wrapper, whose callback runs in a later turn. *)
Definition process_onSuccess (now : Z) (st : state) : state :=
  let st1 := set_processed (processed (qo st) + 1) st in
  let st2 := if negb (paged (fo st1))
                && (numZ (total (fo st1)) =? processed (qo st1))
             then set_timeEnd (Some now) st1 else st1 in
  let st3 := if paged (fo st2)
                && (numZ (total (fo st2)) * limit (fo st2) =? processed (qo st2))
             then set_timeEnd (Some now) st2 else st2 in
  let st4 := if truthyZ (maxLimit (fo st3))
                && (processed (qo st3) =? numZ (maxLimit (fo st3)))
             then set_timeEnd (Some now) st3 else st3 in
  set_procWrappers (S (procWrappers st4)) st4.

(** Success handler of [process(...).then] inside [tryProcess]. *)
Definition tryProcess_onDone (now : Z) (st : state) : state :=
  let st1 := set_processingConcurrent (_processingConcurrent st - 1) st in
  let st2 := notify {| n_offset := offset (fo st1);
                       n_queueSize := queueLength st1;
                       n_processed := processed (qo st1) |} st1 in
  let st3 := tryProcess now st2 in
  if isFunction (_fetchFunc st3)
     && (_requestsConcurrent st3 <? requestLimit (qo st3))
     && (truthyZ (total (fo st3)) && (offset (fo st3) <? cursorBound st3))
  then tryFetch now st3 else st3.

(** [(a - b)/1000.0] *)
Definition seconds (ms : Z) : Q := ms # 1000.

(** The body of the [setInterval] callback. *)
Definition completeCheck_tick (now : Z) (st : state) : state :=
  if truthy (_err st) then
    reject (RejError (_err st)
              {| fetched := total (fo st); processedCount := processed (qo st);
                 time := seconds (now - _timeStart st) |})
      (clearInterval st)
  else if truthyZ (_timeEnd st) then
    resolve (ResDone {| fetched := total (fo st);
                        processedCount := processed (qo st);
                        time := seconds (numZ (_timeEnd st) - _timeStart st) |})
      (clearInterval st)
  else if now - _timeStart st >? maxRuntimeSeconds (qo st) * 1000 then
    reject RejTimeout (clearInterval st)
  else st.

(** ** The event loop *)

(** One turn of the event loop.  Indices select one of the pending
    operations, which may settle in any order. *)
Inductive event : Type :=
| FetchResponse (i : nat) (rtotal : Z) (items : list value)
                                  (* _fetchFunc's promise is fulfilled *)
| FetchError (i : nat) (err : value)  (* _fetchFunc's promise is rejected *)
| FetchDelivered (i : nat)            (* callbacks of a settled fetch() wrapper *)
| ProcessSuccess (i : nat)            (* _processFunc's promise is fulfilled *)
| ProcessError (i : nat) (err : value)(* _processFunc's promise is rejected *)
| ProcessDelivered                    (* callback of a resolved process() wrapper *)
| Tick.                               (* the interval fires *)

(** [step now e st] is [None] when [e] cannot happen in [st]; [now] is what
    [Date.now()] returns during the turn. *)
Definition step (now : Z) (e : event) (st : state) : option state :=
  match e with
  | FetchResponse i rtotal items =>
    match fetchCalls st !! i with
    | Some _ => Some (fetch_onResponse rtotal items
                        (set_fetchCalls (delete i (fetchCalls st)) st))
    | None => None
    end
  | FetchError i err =>
    match fetchCalls st !! i with
    | Some _ => Some (set_err err (set_fetchCalls (delete i (fetchCalls st)) st))
    | None => None
    end
  | FetchDelivered i =>
    match fetchWrappers st !! i with
    | Some (Fulfilled items) =>
      Some (tryFetch_onItems now items
              (set_fetchWrappers (delete i (fetchWrappers st)) st))
    | Some (Failure reason) =>
      Some (set_err reason (set_fetchWrappers (delete i (fetchWrappers st)) st))
    | None => None
    end
  | ProcessSuccess i =>
    match procCalls st !! i with
    | Some _ => Some (process_onSuccess now
                        (set_procCalls (delete i (procCalls st)) st))
    | None => None
    end
  | ProcessError i err =>
    match procCalls st !! i with
    | Some _ => Some (set_err err (set_procCalls (delete i (procCalls st)) st))
    | None => None
    end
  | ProcessDelivered =>
    match procWrappers st with
    | S n => Some (tryProcess_onDone now (set_procWrappers n st))
    | O => None
    end
  | Tick =>
    if completeCheck st then Some (completeCheck_tick now st) else None
  end.

(** A run: a sequence of turns, each with its clock reading. *)
Fixpoint run (tr : list (Z * event)) (st : state) : option state :=
  match tr with
  | [] => Some st
  | (now, e) :: tr' =>
    match step now e st with
    | Some st' => run tr' st'
    | None => None
    end
  end.

(** ** [fetchAndProcess] *)

(** The synchronous body of [fetchAndProcess].  [fopts] and [qopts] are the
    option records after [_.extend] has laid the caller's fields over the
    defaults.  In array mode [_queue] is the caller's array itself; the
    state keeps [_fetchFunc] as it was passed, since later code only asks
    whether it is a function. *)
Definition fetchAndProcess (now : Z) (fetchFunc : source)
    (fopts : fetchOptions) (qopts : queueOptions) : state :=
  let st0 :=
    {| fo := fopts; qo := qopts; _queue := []; _timeStart := now;
       _timeEnd := None; _requestsConcurrent := 0; _processingConcurrent := 0;
       _err := VBool false; _fetchFunc := fetchFunc; deferred := Pending;
       notifications := []; completeCheck := true;
       fetchCalls := []; fetchWrappers := []; procCalls := [];
       procWrappers := O |} in
  match fetchFunc with
  | SrcArray items =>
    let st1 := set_total (Some (Z.of_nat (length items))) st0 in
    match items with
    | [] => clearInterval (resolve ResUndefined st1)
    | _ => tryProcess now (set_queue items st1)
    end
  | SrcFunc => tryFetch now st0
  end.

Definition reachable (s0 st : state) : Prop :=
  exists tr, run tr s0 = Some st.

(** * Properties of the schedulers *)

(** ** What [tryProcess] and [tryFetch] change *)

(** [tryProcess] hands a prefix of the backlog to the process capability,
    unless every item is processed, in which case it stamps [_timeEnd];
    nothing else changes.  It stops only when it is told to. *)
Definition processFrame (now : Z) (st st' : state) : Prop :=
  fo st' = fo st /\ qo st' = qo st /\ _timeStart st' = _timeStart st /\
  _requestsConcurrent st' = _requestsConcurrent st /\
  _err st' = _err st /\ _fetchFunc st' = _fetchFunc st /\
  deferred st' = deferred st /\ notifications st' = notifications st /\
  completeCheck st' = completeCheck st /\ fetchCalls st' = fetchCalls st /\
  fetchWrappers st' = fetchWrappers st /\ procWrappers st' = procWrappers st /\
  _timeEnd st' = (if allProcessed st then Some now else _timeEnd st) /\
  (allProcessed st = true \/ truthy (_err st) = true \/ _queue st' = [] \/
   processingLimit (qo st) <= _processingConcurrent st') /\
  exists taken : list value,
    _queue st = taken ++ _queue st' /\
    procCalls st' = procCalls st ++ taken /\
    _processingConcurrent st' = _processingConcurrent st + Z.of_nat (length taken) /\
    (allProcessed st = true \/ truthy (_err st) = true -> taken = []).

(** [tryFetch] issues fetches and advances the cursor once per fetch, unless
    every item is processed, in which case it stamps [_timeEnd]; nothing
    else changes. *)
Definition fetchFrame (now : Z) (st st' : state) : Prop :=
  limit (fo st') = limit (fo st) /\ maxLimit (fo st') = maxLimit (fo st) /\
  paged (fo st') = paged (fo st) /\ total (fo st') = total (fo st) /\
  fetchTimeout (fo st') = fetchTimeout (fo st) /\
  qo st' = qo st /\ _queue st' = _queue st /\ _timeStart st' = _timeStart st /\
  _processingConcurrent st' = _processingConcurrent st /\
  _err st' = _err st /\ _fetchFunc st' = _fetchFunc st /\
  deferred st' = deferred st /\ notifications st' = notifications st /\
  completeCheck st' = completeCheck st /\
  fetchWrappers st' = fetchWrappers st /\ procCalls st' = procCalls st /\
  procWrappers st' = procWrappers st /\
  _timeEnd st' = (if allProcessed st then Some now else _timeEnd st) /\
  exists new : list (Z * Z),
    fetchCalls st' = fetchCalls st ++ new /\
    _requestsConcurrent st' = _requestsConcurrent st + Z.of_nat (length new) /\
    offset (fo st') = offset (fo st)
      + Z.of_nat (length new) * (if paged (fo st) then 1 else limit (fo st)) /\
    (allProcessed st = true \/ truthy (_err st) = true -> new = []).

Ltac frame_refl :=
  repeat match goal with
         | |- _ /\ _ => split
         | |- _ = _ => reflexivity
         end.

Lemma tryProcess_loop_frame (fuel : nat) (now : Z) (st : state) :
  (length (_queue st) < fuel)%nat ->
  processFrame now st (tryProcess_loop fuel now st).
Proof.
  revert st; induction fuel as [|fuel IH]; intros st Hfuel; [lia|].
  cbn [tryProcess_loop].
  destruct (allProcessed st) eqn:Ha.
  { unfold processFrame; rewrite Ha; simpl; frame_refl; [tauto|].
    exists []; simpl; rewrite ?app_nil_r. repeat split; auto; lia. }
  destruct (truthy (_err st)) eqn:He.
  { unfold processFrame; rewrite Ha; frame_refl; [tauto|].
    exists []; simpl; rewrite ?app_nil_r. repeat split; auto; lia. }
  destruct (_queue st) as [|item rest] eqn:Hq.
  { unfold processFrame; rewrite Ha; frame_refl; [tauto|].
    exists []; simpl; rewrite ?app_nil_r. repeat split; auto; lia. }
  destruct (_processingConcurrent st >=? processingLimit (qo st)) eqn:Hpc.
  { unfold processFrame; rewrite Ha; frame_refl; [right; right; right; lia|].
    exists []; simpl; rewrite ?app_nil_r. repeat split; auto; lia. }
  specialize (IH (issueProcess item rest st)).
  assert (Ha' : allProcessed (issueProcess item rest st) = false) by exact Ha.
  unfold processFrame in *. rewrite Ha, Ha' in *.
  cbn [issueProcess process set_procCalls set_queue set_processingConcurrent
       fo qo _queue _timeStart _timeEnd _requestsConcurrent
       _processingConcurrent _err _fetchFunc deferred notifications
       completeCheck fetchCalls fetchWrappers procCalls procWrappers] in IH.
  destruct IH as (H1 & H2 & H3 & H4 & H5 & H6 & H7 & H8 & H9 & H10 & H11
                  & H12 & H13 & H14 & taken & Hq' & Hc & Hp & _);
    [simpl in Hfuel; lia|].
  repeat (split; [assumption|]).
  exists (item :: taken).
  split; [rewrite Hq; simpl; f_equal; exact Hq'|].
  split; [rewrite Hc, <- app_assoc; reflexivity|].
  split; [rewrite Hp, length_cons; lia|].
  intros [H|H]; congruence.
Qed.

Lemma tryProcess_frame (now : Z) (st : state) :
  processFrame now st (tryProcess now st).
Proof. apply tryProcess_loop_frame. unfold tryProcess_fuel. lia. Qed.

Lemma tryFetch_loop_frame (fuel : nat) (now : Z) (st : state) :
  (Z.to_nat (requestLimit (qo st) - _requestsConcurrent st) < fuel)%nat ->
  fetchFrame now st (tryFetch_loop fuel now st).
Proof.
  revert st; induction fuel as [|fuel IH]; intros st Hfuel; [lia|].
  cbn [tryFetch_loop].
  destruct (allProcessed st) eqn:Ha.
  { unfold fetchFrame; rewrite Ha; simpl; frame_refl.
    exists []; simpl; rewrite ?app_nil_r. repeat split; auto; lia. }
  destruct (truthy (_err st)) eqn:He.
  { unfold fetchFrame; rewrite Ha; frame_refl.
    exists []; simpl; rewrite ?app_nil_r. repeat split; auto; lia. }
  destruct (_requestsConcurrent st >=? requestLimit (qo st)) eqn:Hrc.
  { unfold fetchFrame; rewrite Ha; frame_refl.
    exists []; simpl; rewrite ?app_nil_r. repeat split; auto; lia. }
  destruct (projectedBacklog st >=? queueLimit (qo st)).
  { unfold fetchFrame; rewrite Ha; frame_refl.
    exists []; simpl; rewrite ?app_nil_r. repeat split; auto; lia. }
  destruct (truthyZ (total (fo st)) && (offset (fo st) >=? cursorBound st)).
  { unfold fetchFrame; rewrite Ha; frame_refl.
    exists []; simpl; rewrite ?app_nil_r. repeat split; auto; lia. }
  destruct (truthyZ (maxLimit (fo st))
            && (offset (fo st) >=? numZ (maxLimit (fo st)))).
  { unfold fetchFrame; rewrite Ha; frame_refl.
    exists []; simpl; rewrite ?app_nil_r. repeat split; auto; lia. }
  specialize (IH (issueFetch st)).
  assert (Ha' : allProcessed (issueFetch st) = false) by exact Ha.
  unfold fetchFrame in *. rewrite Ha, Ha' in *.
  cbn [issueFetch fetch set_fetchCalls set_offset set_requestsConcurrent
       fo qo _queue _timeStart _timeEnd _requestsConcurrent
       _processingConcurrent _err _fetchFunc deferred notifications
       completeCheck fetchCalls fetchWrappers procCalls procWrappers
       limit offset maxLimit paged total fetchTimeout] in IH.
  destruct IH as (H1 & H2 & H3 & H4 & H5 & H6 & H7 & H8 & H9 & H10 & H11
                  & H12 & H13 & H14 & H15 & H16 & H17 & H18 & new & Hc & Hr & Ho & _);
    [lia|].
  repeat (split; [assumption|]).
  exists ((limit (fo st), offset (fo st)) :: new).
  split; [rewrite Hc, <- app_assoc; reflexivity|].
  split; [rewrite Hr, length_cons; lia|].
  split; [rewrite Ho, length_cons; destruct (paged (fo st)); lia|].
  intros [H|H]; congruence.
Qed.

Lemma tryFetch_frame (now : Z) (st : state) :
  fetchFrame now st (tryFetch now st).
Proof. apply tryFetch_loop_frame. unfold tryFetch_fuel. lia. Qed.

(** ** The recursion bounds are large enough *)

Lemma tryProcess_loop_enough (now : Z) (n m : nat) (st : state) :
  (length (_queue st) < n)%nat -> (length (_queue st) < m)%nat ->
  tryProcess_loop n now st = tryProcess_loop m now st.
Proof.
  revert m st; induction n as [|n IH]; intros m st Hn Hm; [lia|].
  destruct m as [|m]; [lia|]. simpl.
  destruct (allProcessed st); [reflexivity|].
  destruct (truthy (_err st)); [reflexivity|].
  destruct (_queue st) as [|item rest] eqn:Hq; [reflexivity|].
  destruct (_processingConcurrent st >=? processingLimit (qo st)); [reflexivity|].
  simpl in Hn, Hm. apply IH; simpl; lia.
Qed.

(** [tryProcess] satisfies the recursive equation of the source function. *)
Lemma tryProcess_unfold (now : Z) (st : state) :
  tryProcess now st =
  if allProcessed st then set_timeEnd (Some now) st
  else if truthy (_err st) then st
  else match _queue st with
       | [] => st
       | item :: rest =>
         if _processingConcurrent st >=? processingLimit (qo st) then st
         else tryProcess now (issueProcess item rest st)
       end.
Proof.
  unfold tryProcess at 1. unfold tryProcess_fuel. cbn [tryProcess_loop].
  destruct (allProcessed st); [reflexivity|].
  destruct (truthy (_err st)); [reflexivity|].
  destruct (_queue st) as [|item rest] eqn:Hq; [reflexivity|].
  destruct (_processingConcurrent st >=? processingLimit (qo st)); [reflexivity|].
  unfold tryProcess.
  apply tryProcess_loop_enough; unfold tryProcess_fuel; simpl; lia.
Qed.

Lemma tryFetch_loop_enough (now : Z) (n m : nat) (st : state) :
  (Z.to_nat (requestLimit (qo st) - _requestsConcurrent st) < n)%nat ->
  (Z.to_nat (requestLimit (qo st) - _requestsConcurrent st) < m)%nat ->
  tryFetch_loop n now st = tryFetch_loop m now st.
Proof.
  revert m st; induction n as [|n IH]; intros m st Hn Hm; [lia|].
  destruct m as [|m]; [lia|]. simpl.
  destruct (allProcessed st); [reflexivity|].
  destruct (truthy (_err st)); [reflexivity|].
  destruct (_requestsConcurrent st >=? requestLimit (qo st)) eqn:Hrc; [reflexivity|].
  destruct (projectedBacklog st >=? queueLimit (qo st)); [reflexivity|].
  destruct (truthyZ (total (fo st)) && (offset (fo st) >=? cursorBound st));
    [reflexivity|].
  destruct (truthyZ (maxLimit (fo st))
            && (offset (fo st) >=? numZ (maxLimit (fo st)))); [reflexivity|].
  apply IH; simpl; lia.
Qed.

(** [tryFetch] satisfies the recursive equation of the source function. *)
Lemma tryFetch_unfold (now : Z) (st : state) :
  tryFetch now st =
  if allProcessed st then set_timeEnd (Some now) st
  else if truthy (_err st) then st
  else if _requestsConcurrent st >=? requestLimit (qo st) then st
  else if projectedBacklog st >=? queueLimit (qo st) then st
  else if truthyZ (total (fo st)) && (offset (fo st) >=? cursorBound st) then st
  else if truthyZ (maxLimit (fo st))
          && (offset (fo st) >=? numZ (maxLimit (fo st))) then st
  else tryFetch now (issueFetch st).
Proof.
  unfold tryFetch at 1. unfold tryFetch_fuel. cbn [tryFetch_loop].
  destruct (allProcessed st); [reflexivity|].
  destruct (truthy (_err st)); [reflexivity|].
  destruct (_requestsConcurrent st >=? requestLimit (qo st)) eqn:Hrc; [reflexivity|].
  destruct (projectedBacklog st >=? queueLimit (qo st)); [reflexivity|].
  destruct (truthyZ (total (fo st)) && (offset (fo st) >=? cursorBound st));
    [reflexivity|].
  destruct (truthyZ (maxLimit (fo st))
            && (offset (fo st) >=? numZ (maxLimit (fo st)))); [reflexivity|].
  unfold tryFetch.
  apply tryFetch_loop_enough; unfold tryFetch_fuel; simpl; lia.
Qed.

(** ** Admission of fetches *)

(** The admission policy of the Fetch Scheduler, as a predicate on the state
    in which a fetch is about to be issued. *)
Definition fetchAdmissible (st : state) : Prop :=
  truthy (_err st) = false /\
  _requestsConcurrent st < requestLimit (qo st) /\
  projectedBacklog st < queueLimit (qo st) /\
  (truthyZ (total (fo st)) = false \/ offset (fo st) < cursorBound st) /\
  (truthyZ (maxLimit (fo st)) = false \/ offset (fo st) < numZ (maxLimit (fo st))).

Lemma tryFetch_loop_admissions (fuel : nat) (now : Z) (st : state) :
  exists k : nat,
    (tryFetch_loop fuel now st = Nat.iter k issueFetch st \/
     tryFetch_loop fuel now st = set_timeEnd (Some now) (Nat.iter k issueFetch st)) /\
    forall j : nat, (j < k)%nat -> fetchAdmissible (Nat.iter j issueFetch st).
Proof.
  revert st; induction fuel as [|fuel IH]; intros st; cbn [tryFetch_loop].
  - exists O; split; [left; reflexivity | intros j Hj; lia].
  - destruct (allProcessed st).
    { exists O; split; [right; reflexivity | intros j Hj; lia]. }
    destruct (truthy (_err st)) eqn:He.
    { exists O; split; [left; reflexivity | intros j Hj; lia]. }
    destruct (_requestsConcurrent st >=? requestLimit (qo st)) eqn:Hrc.
    { exists O; split; [left; reflexivity | intros j Hj; lia]. }
    destruct (projectedBacklog st >=? queueLimit (qo st)) eqn:Hql.
    { exists O; split; [left; reflexivity | intros j Hj; lia]. }
    destruct (truthyZ (total (fo st)) && (offset (fo st) >=? cursorBound st)) eqn:Ht.
    { exists O; split; [left; reflexivity | intros j Hj; lia]. }
    destruct (truthyZ (maxLimit (fo st))
              && (offset (fo st) >=? numZ (maxLimit (fo st)))) eqn:Hm.
    { exists O; split; [left; reflexivity | intros j Hj; lia]. }
    destruct (IH (issueFetch st)) as (k & Hk & Hadm).
    exists (S k); split.
    + rewrite Nat.iter_succ_r. exact Hk.
    + intros [|j] Hj.
      * simpl. unfold fetchAdmissible.
        apply andb_false_iff in Ht, Hm.
        repeat split; try lia; try assumption.
        -- destruct Ht as [Ht|Ht]; [left; exact Ht | right; lia].
        -- destruct Hm as [Hm|Hm]; [left; exact Hm | right; lia].
      * rewrite Nat.iter_succ_r. apply Hadm. lia.
Qed.

(** C2.  Whatever [tryFetch] does from a state [st], it amounts to [k]
    admitted fetches (each the three statements of [issueFetch]) followed at
    most by a stamp of [_timeEnd]; and in each of the [k] states in which a
    fetch was issued the admission policy held: no error recorded,
    [_requestsConcurrent < requestLimit], projected backlog
    [_queue.length + limit * (_requestsConcurrent + 1)] below [queueLimit],
    [total] unknown or cursor below [total] ([total + 1] when paged), and
    [maxLimit] unset or cursor below [maxLimit].  Consequently, when the
    projected backlog has reached [queueLimit], [tryFetch] issues no fetch. *)
Theorem tryFetch_admits_only_within_policy (now : Z) (st : state) :
  (exists k : nat,
     (tryFetch now st = Nat.iter k issueFetch st \/
      tryFetch now st = set_timeEnd (Some now) (Nat.iter k issueFetch st)) /\
     forall j : nat, (j < k)%nat -> fetchAdmissible (Nat.iter j issueFetch st)) /\
  (queueLimit (qo st) <= projectedBacklog st ->
   fetchCalls (tryFetch now st) = fetchCalls st /\
   _requestsConcurrent (tryFetch now st) = _requestsConcurrent st).
Proof.
  split; [apply tryFetch_loop_admissions|].
  intros Hfull.
  destruct (tryFetch_loop_admissions (tryFetch_fuel st) now st) as (k & Hk & Hadm).
  destruct k as [|k].
  - unfold tryFetch. change (Nat.iter 0 issueFetch st) with st in Hk.
    destruct Hk as [-> | ->]; split; reflexivity.
  - destruct (Hadm O ltac:(lia)) as (_ & _ & Hlt & _). simpl in Hlt. lia.
Qed.

(** The policy check is not vacuous: with [requestLimit = 2] the first call
    of [tryFetch] issues two fetches before the concurrency gate closes. *)
Example tryFetch_issues_two :
  let st := fetchAndProcess 1000 SrcFunc default_fetchOptions
              (mkQueueOptions 2 1 1000 15000 0 0) in
  fetchCalls st = [(50, 0); (50, 50)] /\ _requestsConcurrent st = 2 /\
  offset (fo st) = 100.
Proof. vm_compute. repeat split; reflexivity. Qed.

(** ** Discovery of [total] *)

(** C3.  A response handled while [total] is unknown, with [maxLimit] set
    and smaller than the reported total, leaves [total] at the reported
    total: the assignment [total = maxLimit] of the first statement is undone
    by the later [if(total != resp.total) total = resp.total]. *)
Theorem fetch_onResponse_discards_maxLimit
    (rtotal : Z) (items : list value) (st : state) :
  truthyZ (total (fo st)) = false ->
  truthyZ (maxLimit (fo st)) = true ->
  numZ (maxLimit (fo st)) < rtotal ->
  total (fo (fetch_onResponse rtotal items st)) = Some rtotal /\
  total (fo (fetch_onResponse rtotal items st)) <> maxLimit (fo st).
Proof.
  intros Ht Hm Hlt. unfold fetch_onResponse.
  rewrite Ht, Hm. simpl negb.
  replace (rtotal >? numZ (maxLimit (fo st))) with true by lia.
  simpl. rewrite Hm. simpl.
  replace (numZ (maxLimit (fo st)) =? rtotal) with false by lia.
  simpl. split; [reflexivity|].
  destruct (maxLimit (fo st)); simpl in *; [|discriminate].
  intros E; inversion E; lia.
Qed.

Lemma fetch_onResponse_discards_maxLimit_witness :
  let st := fetchAndProcess 1000 SrcFunc
              (mkFetchOptions 50 0 (Some 5) false None 0) default_queueOptions in
  total (fo (fetch_onResponse 10 [] st)) = Some 10 /\
  total (fo (fetch_onResponse 10 [] st)) <> maxLimit (fo st).
Proof.
  apply (fetch_onResponse_discards_maxLimit 10 []
           (fetchAndProcess 1000 SrcFunc
              (mkFetchOptions 50 0 (Some 5) false None 0) default_queueOptions));
    vm_compute; reflexivity.
Defined.

(** ** Empty array *)

(** C8.  For an empty array the promise is resolved (with [undefined])
    before [fetchAndProcess] returns, nothing was handed to the process
    capability, the processed counter is untouched, no notification was
    emitted, and the interval created for the completion check has been
    cleared in the same synchronous turn: no event at all can happen
    afterwards, in particular no tick of the completion check. *)
Theorem empty_array_resolves_immediately
    (now : Z) (fopts : fetchOptions) (qopts : queueOptions) :
  let st := fetchAndProcess now (SrcArray []) fopts qopts in
  deferred st = Resolved ResUndefined /\
  processed (qo st) = processed qopts /\
  procCalls st = [] /\ fetchCalls st = [] /\
  notifications st = [] /\
  completeCheck st = false /\
  (forall now' e, step now' e st = None) /\
  (forall tr st', run tr st = Some st' -> st' = st).
Proof.
  simpl. repeat split; try reflexivity.
  - intros now' e; destruct e; simpl; try reflexivity;
      destruct i; reflexivity.
  - intros tr st' H. destruct tr as [|[now' e] tr]; simpl in H; [congruence|].
    destruct e; simpl in H; try discriminate; destruct i; discriminate.
Qed.

(** With the default options the processed count of that run is zero. *)
Example empty_array_default :
  let st := fetchAndProcess 1000 (SrcArray []) default_fetchOptions
              default_queueOptions in
  deferred st = Resolved ResUndefined /\ processed (qo st) = 0 /\
  notifications st = [] /\ step 2000 Tick st = None.
Proof. vm_compute. repeat split; reflexivity. Qed.

(** * Properties of single turns *)

(** Case analysis on an enabled event. *)
Ltac step_inv H :=
  match type of H with
  | step _ ?e _ = Some _ =>
    destruct e; cbn [step] in H;
    repeat match type of H with
           | match ?x with _ => _ end = Some _ =>
             destruct x eqn:?; try discriminate H
           end;
    injection H as <-
  end.

(** Replace every call of a scheduler by a state of which only the frame is
    known. *)
Ltac frames :=
  repeat match goal with
         | |- context [tryFetch ?now ?s] =>
           let H := fresh "HF" in
           let x := fresh "sf" in
           pose proof (tryFetch_frame now s) as H;
           set (x := tryFetch now s) in *; clearbody x
         | |- context [tryProcess ?now ?s] =>
           let H := fresh "HP" in
           let x := fresh "sp" in
           pose proof (tryProcess_frame now s) as H;
           set (x := tryProcess now s) in *; clearbody x
         | _ : context [tryFetch ?now ?s] |- _ =>
           let H := fresh "HF" in
           let x := fresh "sf" in
           pose proof (tryFetch_frame now s) as H;
           set (x := tryFetch now s) in *; clearbody x
         | _ : context [tryProcess ?now ?s] |- _ =>
           let H := fresh "HP" in
           let x := fresh "sp" in
           pose proof (tryProcess_frame now s) as H;
           set (x := tryProcess now s) in *; clearbody x
         end;
  unfold fetchFrame, processFrame in *.

Ltac destr :=
  repeat match goal with
         | H : _ /\ _ |- _ => destruct H
         | H : exists _, _ |- _ => destruct H
         end.

Ltac case_ifs :=
  repeat match goal with
         | |- context [if ?c then _ else _] => destruct c eqn:?
         | |- context [match deferred ?s with _ => _ end] => destruct (deferred s) eqn:?
         | |- context [match ?l with [] => _ | _ :: _ => _ end] => destruct l eqn:?
         end.

(** Appending an empty page is what skipping the [concat] does. *)
Lemma tryFetch_onItems_concat (now : Z) (items : list value) (st : state) :
  tryFetch_onItems now items st =
  tryFetch now (tryProcess now
    (set_queue (_queue st ++ items)
       (set_requestsConcurrent (_requestsConcurrent st - 1) st))).
Proof.
  unfold tryFetch_onItems. destruct items as [|item items]; [|reflexivity].
  cbv zeta. do 2 f_equal. destruct st; unfold set_queue; simpl.
  rewrite app_nil_r. reflexivity.
Qed.

Ltac handlers :=
  rewrite ?tryFetch_onItems_concat;
  unfold tryProcess_onDone, process_onSuccess,
    fetch_onResponse, completeCheck_tick, resolve, reject, notify, clearInterval;
  cbv zeta;
  repeat match goal with
         | |- context [match deferred ?s with _ => _ end] =>
           destruct (deferred s) eqn:?
         end.

(** ** [_timeEnd] *)

Lemma step_timeEnd (now : Z) (e : event) (st st' : state) :
  step now e st = Some st' ->
  _timeEnd st' = _timeEnd st \/ _timeEnd st' = Some now.
Proof.
  intros H. step_inv H; handlers; frames; destr; case_ifs; simpl in *;
    repeat match goal with
           | H : _timeEnd ?s = _ |- context [_timeEnd ?s] => rewrite H; clear H
           end;
    case_ifs; auto.
Qed.

(** C4 (as amended).  Once [_timeEnd] holds a timestamp it holds one after
    every later turn: a turn either leaves it as it is or overwrites it with
    the current clock reading (both schedulers stamp it again each time they
    run after the last item is processed). *)
Theorem timeEnd_never_cleared (now : Z) (e : event) (st st' : state) :
  0 < now ->
  truthyZ (_timeEnd st) = true ->
  step now e st = Some st' ->
  truthyZ (_timeEnd st') = true /\
  (_timeEnd st' = _timeEnd st \/ _timeEnd st' = Some now).
Proof.
  intros Hnow Hset Hstep.
  pose proof (step_timeEnd now e st st' Hstep) as [H|H]; rewrite H.
  - split; [exact Hset | left; reflexivity].
  - split; [simpl; lia | right; reflexivity].
Qed.

(** A one-item array with the default options: the item is handed to the
    process capability by [fetchAndProcess] itself. *)
Definition oneItemRun : state :=
  fetchAndProcess 1000 (SrcArray [VNum 7]) default_fetchOptions
    default_queueOptions.

Lemma timeEnd_never_cleared_witness :
  exists st st',
    run [(1003, ProcessSuccess O)] oneItemRun = Some st /\
    step 1004 ProcessDelivered st = Some st' /\
    truthyZ (_timeEnd st') = true /\
    (_timeEnd st' = _timeEnd st \/ _timeEnd st' = Some 1004).
Proof.
  eexists; eexists.
  split; [vm_compute; reflexivity|].
  split; [vm_compute; reflexivity|].
  eapply (timeEnd_never_cleared 1004 ProcessDelivered);
    [lia | vm_compute; reflexivity | vm_compute; reflexivity].
Defined.

(** Counterexample to C4 as stated: the success handler of [process] stamps
    [_timeEnd] at 1003; one turn later the callback in [tryProcess] calls
    [tryProcess] again, whose first line stamps it anew at 1004. *)
Lemma timeEnd_overwritten :
  exists st st',
    run [(1003, ProcessSuccess O)] oneItemRun = Some st /\
    step 1004 ProcessDelivered st = Some st' /\
    _timeEnd st = Some 1003 /\
    _timeEnd st' = Some 1004.
Proof.
  eexists; eexists.
  split; [vm_compute; reflexivity|].
  split; [vm_compute; reflexivity|].
  split; reflexivity.
Qed.

(** ** The error slot *)

(** The payload a turn hands to one of the [_err = err] handlers, if any. *)
Definition failurePayload (e : event) (st : state) : option value :=
  match e with
  | FetchError _ err => Some err
  | ProcessError _ err => Some err
  | FetchDelivered i =>
    match fetchWrappers st !! i with
    | Some (Failure reason) => Some reason
    | _ => None
    end
  | _ => None
  end.

Lemma step_err (now : Z) (e : event) (st st' : state) :
  step now e st = Some st' ->
  _err st' = match failurePayload e st with
             | Some v => v
             | None => _err st
             end.
Proof.
  intros H. unfold failurePayload.
  step_inv H; handlers; frames; destr; case_ifs; simpl in *;
    try congruence.
Qed.

(** What a turn can do to the pending work when an error is recorded. *)
Definition nothingAdmitted (st st' : state) : Prop :=
  (fetchCalls st' = fetchCalls st \/
   exists i, fetchCalls st' = delete i (fetchCalls st)) /\
  (procCalls st' = procCalls st \/
   exists i, procCalls st' = delete i (procCalls st)) /\
  (exists items, _queue st' = _queue st ++ items) /\
  offset (fo st') = offset (fo st) /\
  _requestsConcurrent st' <= _requestsConcurrent st /\
  _processingConcurrent st' <= _processingConcurrent st.

(** C6 (as amended).  In every state where the error slot is set, a turn
    admits no new work: no fetch is issued (the pending fetch calls stay as
    they are or lose the one that settled), no item is handed to the process
    capability, no item leaves the backlog (the backlog only grows at its
    tail), the cursor does not advance and neither concurrency counter
    rises.  Results of operations already in flight are still applied. *)
Theorem error_blocks_admission (now : Z) (e : event) (st st' : state) :
  truthy (_err st) = true ->
  step now e st = Some st' ->
  nothingAdmitted st st'.
Proof.
  intros He H. unfold nothingAdmitted.
  step_inv H; handlers; frames; destr; simpl in *;
    repeat match goal with
           | H : _ \/ truthy ?x = true -> _ = [] |- _ =>
             let E := fresh in
             assert (E : truthy x = true) by congruence;
             specialize (H (or_intror E)); subst; clear E
           end;
    case_ifs; simpl in *.
  all: repeat match goal with
              | H : ?a = ?b ++ [] |- _ => rewrite app_nil_r in H
              | H : ?a = [] ++ ?b |- _ => simpl in H
              end.
  all: repeat split;
    try solve [ left; congruence
              | right; eexists; reflexivity
              | exists []; rewrite app_nil_r; congruence
              | eexists; reflexivity
              | congruence
              | lia
              | match goal with
                | H : _queue _ ++ ?it = _ |- _ => exists it; congruence
                end
              | repeat match goal with
                       | H : fo _ = fo _ |- _ => rewrite H in *; clear H
                       end; lia ].
Qed.

(** Two items, [processingLimit = 2]: both are handed to the process
    capability by [fetchAndProcess] itself. *)
Definition twoItemRun : state :=
  fetchAndProcess 1000 (SrcArray [VNum 1; VNum 2]) default_fetchOptions
    (mkQueueOptions 1 2 1000 15000 0 0).

Lemma error_blocks_admission_witness :
  exists st st',
    run [(1001, ProcessError O (VStr "first"))] twoItemRun = Some st /\
    step 1002 (ProcessSuccess O) st = Some st' /\
    nothingAdmitted st st'.
Proof.
  eexists; eexists.
  split; [vm_compute; reflexivity|].
  split; [vm_compute; reflexivity|].
  eapply (error_blocks_admission 1002 (ProcessSuccess O));
    vm_compute; reflexivity.
Defined.

(** Counterexample to C6 as stated: the first item fails, then the second,
    already in flight, succeeds.  Its completion raises the processed
    counter and, one turn later, emits a progress notification. *)
Lemma completion_after_error_is_applied :
  exists st st' st'',
    run [(1001, ProcessError O (VStr "first"))] twoItemRun = Some st /\
    truthy (_err st) = true /\
    step 1002 (ProcessSuccess O) st = Some st' /\
    step 1003 ProcessDelivered st' = Some st'' /\
    processed (qo st) = 0 /\ processed (qo st') = 1 /\
    notifications st' = [] /\
    notifications st'' = [mkNotification 0 0 1].
Proof.
  eexists; eexists; eexists.
  split; [vm_compute; reflexivity|].
  split; [reflexivity|].
  split; [vm_compute; reflexivity|].
  split; [vm_compute; reflexivity|].
  repeat split; reflexivity.
Qed.

(** Operations whose failure can still reach one of the [_err = err]
    handlers. *)
Definition inFlight (st : state) : nat :=
  length (fetchCalls st) + length (fetchWrappers st) + length (procCalls st).

Lemma lookup_length_delete {A : Type} (l : list A) (i : nat) (x : A) :
  l !! i = Some x -> length l = S (length (delete i l)).
Proof.
  intros H. rewrite length_delete by (eexists; exact H).
  apply lookup_lt_Some in H. lia.
Qed.

Lemma step_inFlight (now : Z) (e : event) (st st' : state) :
  truthy (_err st) = true ->
  step now e st = Some st' ->
  (inFlight st' <= inFlight st)%nat.
Proof.
  intros He H. unfold inFlight.
  step_inv H;
    repeat match goal with
           | H : _ !! _ = Some _ |- _ => apply lookup_length_delete in H
           end;
    handlers; frames; destr; simpl in *;
    repeat match goal with
           | H : _ \/ truthy ?x = true -> _ = [] |- _ =>
             let E := fresh in
             assert (E : truthy x = true) by congruence;
             specialize (H (or_intror E)); subst; clear E
           end;
    case_ifs; simpl in *;
    repeat match goal with
           | H : ?a = ?b ++ [] |- _ => rewrite app_nil_r in H
           end;
    repeat match goal with
           | H : fetchCalls _ = _ |- _ => rewrite H; clear H
           | H : fetchWrappers _ = _ |- _ => rewrite H; clear H
           | H : procCalls _ = _ |- _ => rewrite H; clear H
           end;
    rewrite ?length_app; simpl; lia.
Qed.

(** C5 (as amended).  The error slot is written only by the failure
    handlers, and each of them overwrites it: after a turn that delivers a
    failure the slot holds that failure, whatever it held before; after any
    other turn it is unchanged.  While the slot is set the number of
    operations in flight, the only ones that can still deliver a failure,
    does not grow. *)
Theorem err_slot_holds_latest_failure (now : Z) (e : event) (st st' : state) :
  step now e st = Some st' ->
  _err st' = match failurePayload e st with
             | Some v => v
             | None => _err st
             end /\
  (truthy (_err st) = true -> (inFlight st' <= inFlight st)%nat).
Proof.
  intros H. split; [exact (step_err now e st st' H)|].
  intros He. exact (step_inFlight now e st st' He H).
Qed.

Lemma err_slot_holds_latest_failure_witness :
  exists st st',
    run [(1001, ProcessError O (VStr "first"))] twoItemRun = Some st /\
    step 1002 (ProcessError O (VStr "second")) st = Some st' /\
    _err st' = VStr "second" /\
    (truthy (_err st) = true -> (inFlight st' <= inFlight st)%nat).
Proof.
  eexists; eexists.
  split; [vm_compute; reflexivity|].
  split; [vm_compute; reflexivity|].
  eapply (err_slot_holds_latest_failure 1002 (ProcessError O (VStr "second")));
    vm_compute; reflexivity.
Defined.

(** Counterexample to C5 as stated: two process calls are in flight; the
    first failure is recorded, then the second failure replaces it. *)
Lemma first_error_overwritten :
  exists st st',
    run [(1001, ProcessError O (VStr "first"))] twoItemRun = Some st /\
    step 1002 (ProcessError O (VStr "second")) st = Some st' /\
    _err st = VStr "first" /\
    _err st' = VStr "second".
Proof.
  eexists; eexists.
  split; [vm_compute; reflexivity|].
  split; [vm_compute; reflexivity|].
  split; reflexivity.
Qed.

(** ** Concurrency slots of failed operations *)

(** Admitted fetches (processes) that are counted in [_requestsConcurrent]
    ([_processingConcurrent]) although neither their capability call nor
    their wrapper is pending any more: nothing is left that could run the
    decrement for them. *)
Definition lostFetchSlots (st : state) : Z :=
  _requestsConcurrent st
  - Z.of_nat (length (fetchCalls st)) - Z.of_nat (length (fetchWrappers st)).

Definition lostProcessSlots (st : state) : Z :=
  _processingConcurrent st
  - Z.of_nat (length (procCalls st)) - Z.of_nat (procWrappers st).

Lemma step_lostSlots (now : Z) (e : event) (st st' : state) :
  step now e st = Some st' ->
  lostFetchSlots st <= lostFetchSlots st' /\
  lostProcessSlots st <= lostProcessSlots st'.
Proof.
  intros H. unfold lostFetchSlots, lostProcessSlots.
  step_inv H;
    repeat match goal with
           | H : _ !! _ = Some _ |- _ => apply lookup_length_delete in H
           end;
    handlers; frames; destr; case_ifs; simpl in *;
    repeat match goal with
           | H : fetchCalls _ = _ |- _ => rewrite H; clear H
           | H : fetchWrappers _ = _ |- _ => rewrite H; clear H
           | H : procCalls _ = _ |- _ => rewrite H; clear H
           | H : procWrappers _ = _ |- _ => rewrite H; clear H
           end;
    rewrite ?length_app; simpl; lia.
Qed.

Lemma run_lostSlots (tr : list (Z * event)) (st st' : state) :
  run tr st = Some st' ->
  lostFetchSlots st <= lostFetchSlots st' /\
  lostProcessSlots st <= lostProcessSlots st'.
Proof.
  revert st; induction tr as [|[now e] tr IH]; intros st H; simpl in H.
  - injection H as <-. lia.
  - destruct (step now e st) as [st1|] eqn:Hs; [|discriminate].
    pose proof (step_lostSlots now e st st1 Hs).
    pose proof (IH st1 H). lia.
Qed.

(** Is [e] the failure of the fetch / process capability? *)
Definition isFetchError (e : event) : bool :=
  match e with FetchError _ _ => true | _ => false end.

Definition isProcessError (e : event) : bool :=
  match e with ProcessError _ _ => true | _ => false end.

(** C10.  When the fetch (process) capability reports a failure, the
    handler assigns the error slot and nothing else: the wrapper created by
    [fetch] ([process]) is not settled, so its success callback, the only
    place where [_requestsConcurrent] ([_processingConcurrent]) is
    decremented, never runs for that operation.  The slot taken at admission
    is lost for the rest of the run: however the run continues, the counter
    stays above the number of operations that are still pending by one
    more than before the failure. *)
Theorem failed_operation_keeps_its_slot
    (now : Z) (e : event) (st st1 : state) (tr : list (Z * event)) (st2 : state) :
  step now e st = Some st1 ->
  run tr st1 = Some st2 ->
  (isFetchError e = true ->
     fetchWrappers st1 = fetchWrappers st /\
     _requestsConcurrent st1 = _requestsConcurrent st /\
     length (fetchCalls st) = S (length (fetchCalls st1)) /\
     lostFetchSlots st + 1 <= lostFetchSlots st2) /\
  (isProcessError e = true ->
     procWrappers st1 = procWrappers st /\
     _processingConcurrent st1 = _processingConcurrent st /\
     length (procCalls st) = S (length (procCalls st1)) /\
     lostProcessSlots st + 1 <= lostProcessSlots st2) /\
  (isFetchError e = true \/ isProcessError e = true ->
     exists err, _err st1 = err /\ failurePayload e st = Some err /\
     fo st1 = fo st /\ qo st1 = qo st /\ _queue st1 = _queue st /\
     _timeEnd st1 = _timeEnd st /\ deferred st1 = deferred st /\
     notifications st1 = notifications st).
Proof.
  intros Hstep Hrun.
  pose proof (run_lostSlots tr st1 st2 Hrun) as [Hf Hp].
  destruct e; simpl in *; (split; [|split]); intros Hd;
    try discriminate Hd; try (destruct Hd; discriminate).
  all: match type of Hstep with
       | match ?x with _ => _ end = Some _ =>
         destruct x eqn:Hi; [|discriminate Hstep]
       end;
    injection Hstep as <-; apply lookup_length_delete in Hi;
    unfold lostFetchSlots, lostProcessSlots in *; simpl in *.
  all: try (eexists; repeat split; reflexivity).
  all: repeat split; try reflexivity; try lia.
Qed.

Lemma failed_operation_keeps_its_slot_witness :
  exists st1 st2,
    step 1001 (ProcessError O (VStr "first")) twoItemRun = Some st1 /\
    run [(1002, ProcessSuccess O); (1003, ProcessDelivered)] st1 = Some st2 /\
    procWrappers st1 = procWrappers twoItemRun /\
    _processingConcurrent st1 = _processingConcurrent twoItemRun /\
    length (procCalls twoItemRun) = S (length (procCalls st1)) /\
    lostProcessSlots twoItemRun + 1 <= lostProcessSlots st2.
Proof.
  eexists; eexists.
  split; [vm_compute; reflexivity|].
  split; [vm_compute; reflexivity|].
  refine (proj1 (proj2 (failed_operation_keeps_its_slot 1001
            (ProcessError O (VStr "first")) twoItemRun _
            [(1002, ProcessSuccess O); (1003, ProcessDelivered)] _ _ _)) _);
    vm_compute; reflexivity.
Defined.

(** * Array mode *)

(** What holds in every state of a run whose source is an array of [N]
    items, whatever the process capability does. *)
Definition arrayBound (N : Z) (st : state) : Prop :=
  isFunction (_fetchFunc st) = false /\
  total (fo st) = Some N /\
  fetchCalls st = [] /\ fetchWrappers st = [] /\
  _requestsConcurrent st = 0 /\
  processed (qo st) + Z.of_nat (length (procCalls st))
    + Z.of_nat (length (_queue st)) <= N.

Lemma arrayBound_init (now : Z) (items : list value)
    (fopts : fetchOptions) (qopts : queueOptions) :
  processed qopts = 0 ->
  arrayBound (Z.of_nat (length items))
    (fetchAndProcess now (SrcArray items) fopts qopts).
Proof.
  intros Hp. unfold fetchAndProcess. cbv zeta.
  destruct items as [|item items].
  - unfold arrayBound; simpl. repeat split; try reflexivity. lia.
  - set (N := Z.of_nat (length (item :: items))).
    unfold arrayBound. frames. destr. simpl in *.
    repeat match goal with
           | H : _fetchFunc _ = _ |- _ => rewrite H; clear H
           | H : fo _ = _ |- _ => rewrite H; clear H
           | H : qo _ = _ |- _ => rewrite H; clear H
           | H : procCalls _ = _ |- _ => rewrite H; clear H
           end.
    repeat split; try congruence.
    match goal with
    | H' : _ :: _ = _ ++ _ |- _ =>
      apply (f_equal (@length value)) in H';
      rewrite length_app in H'; simpl in H'
    end.
    subst N; simpl length; lia.
Qed.

Lemma arrayBound_step (N : Z) (now : Z) (e : event) (st st' : state) :
  arrayBound N st -> step now e st = Some st' -> arrayBound N st'.
Proof.
  unfold arrayBound. intros (Hf & Ht & Hc & Hw & Hr & Hsum) H.
  step_inv H;
    try match goal with
        | H : fetchCalls _ !! _ = Some _ |- _ => rewrite Hc in H; discriminate H
        | H : fetchWrappers _ !! _ = Some _ |- _ => rewrite Hw in H; discriminate H
        end;
    repeat match goal with
           | H : _ !! _ = Some _ |- _ => apply lookup_length_delete in H
           end;
    handlers; frames; destr; simpl in *;
    repeat match goal with
           | H : _fetchFunc ?s = _ |- context [_fetchFunc ?s] => rewrite H
           end;
    try rewrite Hf; simpl; case_ifs; simpl in *;
    repeat split; try congruence;
    repeat match goal with
           | H : procCalls _ = _ |- _ => rewrite H; clear H
           | H : qo _ = _ |- _ => rewrite H; clear H
           | H : _queue st = _ |- _ =>
             apply (f_equal (@length value)) in H; rewrite length_app in H
           end;
    simpl; rewrite ?length_app; lia.
Qed.

Lemma arrayBound_run (N : Z) (tr : list (Z * event)) (st st' : state) :
  arrayBound N st -> run tr st = Some st' -> arrayBound N st'.
Proof.
  revert st; induction tr as [|[now e] tr IH]; intros st Hinv H; simpl in H.
  - injection H as <-. exact Hinv.
  - destruct (step now e st) as [st1|] eqn:Hs; [|discriminate].
    eapply IH; [|exact H]. eapply arrayBound_step; eassumption.
Qed.

(** C7 (as amended).  In array mode, with the processed counter starting at
    zero, [total] is the length of the array in every reachable state and
    the processed counter never exceeds it. *)
Theorem array_processed_le_total
    (now : Z) (items : list value) (fopts : fetchOptions) (qopts : queueOptions)
    (tr : list (Z * event)) (st : state) :
  processed qopts = 0 ->
  run tr (fetchAndProcess now (SrcArray items) fopts qopts) = Some st ->
  total (fo st) = Some (Z.of_nat (length items)) /\
  processed (qo st) <= numZ (total (fo st)).
Proof.
  intros Hp Hrun.
  pose proof (arrayBound_run _ tr _ st (arrayBound_init now items fopts qopts Hp) Hrun)
    as (_ & Ht & _ & _ & _ & Hsum).
  split; [exact Ht|]. rewrite Ht; simpl. lia.
Qed.

Lemma array_processed_le_total_witness :
  exists st,
    run [(1003, ProcessSuccess O); (1004, ProcessDelivered)] oneItemRun = Some st /\
    total (fo st) = Some 1 /\ processed (qo st) <= numZ (total (fo st)).
Proof.
  eexists. split; [vm_compute; reflexivity|].
  apply (array_processed_le_total 1000 [VNum 7] default_fetchOptions
           default_queueOptions [(1003, ProcessSuccess O); (1004, ProcessDelivered)]);
    [reflexivity | vm_compute; reflexivity].
Defined.

(** Counterexample to C7 as stated.  With [requestLimit = 2] two fetches are
    issued at once.  The first response reports a total of 3 and delivers
    three items, two of which get processed; the second response then
    reports a total of 1, which [fetch] adopts: the processed count, 2,
    now exceeds the known [total], 1. *)
Definition shrinkingRun : list (Z * event) :=
  [ (1100, FetchResponse O 3 [VNum 1; VNum 2; VNum 3]);
    (1101, FetchDelivered O);
    (1110, ProcessSuccess O);
    (1111, ProcessDelivered);
    (1120, ProcessSuccess O);
    (1130, FetchResponse O 1 []) ].

Lemma processed_exceeds_total :
  exists st,
    run shrinkingRun
      (fetchAndProcess 1000 SrcFunc default_fetchOptions
         (mkQueueOptions 2 1 1000 15000 0 0)) = Some st /\
    total (fo st) = Some 1 /\ truthyZ (total (fo st)) = true /\
    processed (qo st) = 2.
Proof.
  eexists. split; [vm_compute; reflexivity|].
  repeat split; reflexivity.
Qed.

(** ** Array mode when the process capability never fails *)

(** The outcome record of a successful run over [N] items. *)
Definition doneWith (N : Z) (d : promiseState) : Prop :=
  exists t : Q,
    d = Resolved (ResDone {| fetched := Some N; processedCount := N; time := t |}).

(** What holds in every state of a run over an array of [N > 0] items with
    [maxLimit] unset, as long as no process call has failed. *)
Definition arrayInv (N : Z) (st : state) : Prop :=
  arrayBound N st /\
  0 < N /\
  truthyZ (maxLimit (fo st)) = false /\
  truthy (_err st) = false /\
  1 <= processingLimit (qo st) /\
  0 <= processed (qo st) /\
  processed (qo st) + Z.of_nat (length (procCalls st))
    + Z.of_nat (length (_queue st)) = N /\
  _processingConcurrent st
    = Z.of_nat (length (procCalls st)) + Z.of_nat (procWrappers st) /\
  (_queue st = [] \/ processingLimit (qo st) <= _processingConcurrent st \/
   processed (qo st) = N) /\
  (truthyZ (_timeEnd st) = true -> processed (qo st) = N) /\
  (processed (qo st) = N -> procWrappers st = O -> truthyZ (_timeEnd st) = true) /\
  match deferred st with
  | Pending => completeCheck st = true
  | Resolved _ => doneWith N (deferred st)
  | Rejected r => r = RejTimeout
  end.

Lemma allProcessed_array (N : Z) (st : state) :
  total (fo st) = Some N -> 0 < N ->
  allProcessed st = (processed (qo st) =? N).
Proof.
  intros Ht HN. unfold allProcessed. rewrite Ht. simpl.
  replace (N =? 0) with false by lia. reflexivity.
Qed.

Lemma arrayInv_init (now : Z) (items : list value)
    (fopts : fetchOptions) (qopts : queueOptions) :
  items <> [] ->
  truthyZ (maxLimit fopts) = false ->
  processed qopts = 0 ->
  1 <= processingLimit qopts ->
  arrayInv (Z.of_nat (length items))
    (fetchAndProcess now (SrcArray items) fopts qopts).
Proof.
  intros Hne Hm Hp Hl.
  pose proof (arrayBound_init now items fopts qopts Hp) as Hb.
  unfold arrayInv. split; [exact Hb|]. clear Hb.
  unfold fetchAndProcess. cbv zeta.
  destruct items as [|item items]; [congruence|].
  set (N := Z.of_nat (length (item :: items))).
  assert (HN : 0 < N) by (subst N; simpl length; lia).
  frames. destr.
  match goal with
  | H : context [allProcessed ?s] |- _ =>
    assert (Ha : allProcessed s = false)
      by (rewrite (allProcessed_array N) by (simpl; auto); simpl; lia)
  end.
  rewrite Ha in *. simpl in *.
  match goal with
  | H' : _ :: _ = _ ++ _ |- _ =>
    apply (f_equal (@length value)) in H';
      rewrite length_app in H'; simpl in H'
  end.
  repeat match goal with
         | H : fo _ = _ |- _ => rewrite H; clear H
         | H : qo _ = _ |- _ => rewrite H; clear H
         | H : procCalls _ = _ |- _ => rewrite H; clear H
         | H : procWrappers _ = _ |- _ => rewrite H; clear H
         | H : _timeEnd _ = _ |- _ => rewrite H; clear H
         | H : _err _ = _ |- _ => rewrite H; clear H
         | H : deferred _ = _ |- _ => rewrite H; clear H
         end.
  simpl. repeat split; try assumption; try lia; try discriminate.
  match goal with
  | H : _ \/ _ \/ _ \/ _ |- _ =>
    destruct H as [H|[H|[H|H]]]; try discriminate;
      [left; exact H | right; left; lia]
  end.
Qed.

(** ** The completion test of [process] *)

(** The three tests of the success handler of [process], on the incremented
    count [p]. *)
Definition targetReached (st : state) (p : Z) : bool :=
  (negb (paged (fo st)) && (numZ (total (fo st)) =? p))
  || (paged (fo st) && (numZ (total (fo st)) * limit (fo st) =? p))
  || (truthyZ (maxLimit (fo st)) && (p =? numZ (maxLimit (fo st)))).

Lemma process_onSuccess_spec (now : Z) (st : state) :
  process_onSuccess now st =
  let st1 := set_processed (processed (qo st) + 1) st in
  set_procWrappers (S (procWrappers st))
    (if targetReached st (processed (qo st) + 1)
     then set_timeEnd (Some now) st1 else st1).
Proof.
  destruct st as [[l o m pg t ft] [rl pl ql mr pt p] q ts te rc pc er ff d ns cc
                  fc fw pcs pw].
  unfold process_onSuccess, targetReached; simpl.
  destruct pg; simpl;
    destruct (numZ t * l =? p + 1); destruct (numZ t =? p + 1); simpl;
    destruct (truthyZ m); simpl; try reflexivity;
    destruct (p + 1 =? numZ m); reflexivity.
Qed.

(** Work left before the run can complete: every item still needs a success
    turn and a delivery turn. *)
Definition workLeft (st : state) : nat :=
  2 * (length (_queue st) + length (procCalls st)) + procWrappers st.

Lemma arrayInv_ProcessSuccess (N now : Z) (i : nat) (st st' : state) :
  arrayInv N st -> 0 < now ->
  step now (ProcessSuccess i) st = Some st' ->
  arrayInv N st' /\ deferred st' = deferred st /\ (workLeft st' < workLeft st)%nat.
Proof.
  unfold arrayInv, arrayBound, workLeft.
  intros ((Hf & Ht & Hc & Hw & Hr & _) & HN & Hm & He & Hl & Hp0 & Hsum & Hpc
          & Hsat & Hte & Hdone & Hd) Hnow H.
  cbn [step] in H. destruct (procCalls st !! i) eqn:Hi; [|discriminate].
  injection H as <-. apply lookup_length_delete in Hi.
  rewrite process_onSuccess_spec. cbv zeta.
  assert (Hpn : processed (qo st) <> N) by lia.
  assert (Hte' : truthyZ (_timeEnd st) = false).
  { destruct (truthyZ (_timeEnd st)); [exfalso; auto | reflexivity]. }
  destruct (targetReached _ _) eqn:Htr; unfold targetReached in Htr;
    simpl in *; rewrite Ht, Hm in Htr; simpl in Htr;
    rewrite ?orb_false_r in Htr.
  - assert (Hfin : processed (qo st) + 1 = N).
    { destruct (paged (fo st)); simpl in Htr; [|lia].
      apply Z.eqb_eq in Htr.
      destruct (Z_le_gt_dec (limit (fo st)) 0); nia. }
    split; [|split; [reflexivity | lia]].
    repeat split; try assumption; try lia.
  - split; [|split; [reflexivity | lia]].
    repeat split; try assumption; try lia; try discriminate.
    + destruct Hsat as [Hs|[Hs|Hs]]; [left; exact Hs | right; left; exact Hs | lia].
    + rewrite Hte'. discriminate.
Qed.

Lemma arrayInv_ProcessDelivered (N now : Z) (st st' : state) :
  arrayInv N st -> 0 < now ->
  step now ProcessDelivered st = Some st' ->
  arrayInv N st' /\ deferred st' = deferred st /\ (workLeft st' < workLeft st)%nat.
Proof.
  unfold arrayInv, arrayBound, workLeft.
  intros ((Hf & Ht & Hc & Hw & Hr & _) & HN & Hm & He & Hl & Hp0 & Hsum & Hpc
          & Hsat & Hte & Hdone & Hd) Hnow H.
  cbn [step] in H. destruct (procWrappers st) as [|n] eqn:Hn; [discriminate|].
  injection H as <-.
  unfold tryProcess_onDone. cbv zeta.
  set (s2 := notify _ _).
  assert (Hs2 : fo s2 = fo st /\ qo s2 = qo st /\ _queue s2 = _queue st /\
                _timeEnd s2 = _timeEnd st /\ _requestsConcurrent s2 = 0 /\
                _processingConcurrent s2 = _processingConcurrent st - 1 /\
                _err s2 = _err st /\ _fetchFunc s2 = _fetchFunc st /\
                deferred s2 = deferred st /\ completeCheck s2 = completeCheck st /\
                fetchCalls s2 = [] /\ fetchWrappers s2 = [] /\
                procCalls s2 = procCalls st /\ procWrappers s2 = n).
  { subst s2. unfold notify. simpl. destruct (deferred st) eqn:Hdef; simpl;
      repeat split; assumption. }
  clearbody s2.
  destruct Hs2 as (E1 & E2 & E3 & E4 & E5 & E6 & E7 & E8 & E9 & E10 & E11 & E12
                   & E13 & E14).
  pose proof (tryProcess_frame now s2) as HP.
  set (sp := tryProcess now s2) in *. clearbody sp.
  unfold processFrame in HP.
  destruct HP as (F1 & F2 & F3 & F4 & F5 & F6 & F7 & F8 & F9 & F10 & F11 & F12
                  & F13 & F14 & taken & G1 & G2 & G3 & G4).
  rewrite F6, E8, Hf. simpl.
  rewrite (allProcessed_array N) in F13, F14, G4 by congruence.
  assert (Q1 : qo sp = qo st) by congruence.
  assert (Q2 : fo sp = fo st) by congruence.
  assert (Q3 : procWrappers sp = n) by congruence.
  assert (Q4 : length (procCalls sp) = (length (procCalls st) + length taken)%nat)
    by (rewrite G2, E13, length_app; reflexivity).
  assert (Q5 : length (_queue st) = (length taken + length (_queue sp))%nat)
    by (rewrite <- E3, G1, length_app; reflexivity).
  assert (Q6 : _err sp = _err st) by congruence.
  assert (Q7 : deferred sp = deferred st) by congruence.
  assert (Q8 : completeCheck sp = completeCheck st) by congruence.
  rewrite Q1, Q2, Q3, Q6, Q7, Q8, F13, E2, E4, E7 in *.
  destruct (processed (qo st) =? N) eqn:Hfin.
  - assert (taken = []) by auto. subst taken. simpl in *.
    split; [|split; [reflexivity | lia]].
    repeat split; try assumption; try congruence; try lia.
  - split; [|split; [reflexivity | lia]].
    repeat split; try assumption; try congruence; try lia.
    destruct F14 as [F|[F|[F|F]]]; try congruence;
      [left; exact F | right; left; lia].
Qed.

Lemma arrayInv_Tick (N now : Z) (st st' : state) :
  arrayInv N st ->
  step now Tick st = Some st' ->
  arrayInv N st' /\ workLeft st' = workLeft st /\
  (deferred st = Pending -> truthyZ (_timeEnd st) = true ->
   doneWith N (deferred st')).
Proof.
  unfold arrayInv, arrayBound, workLeft.
  intros ((Hf & Ht & Hc & Hw & Hr & Hle) & HN & Hm & He & Hl & Hp0 & Hsum & Hpc
          & Hsat & Hte & Hdone & Hd) H.
  cbn [step] in H. destruct (completeCheck st) eqn:Hcc; [|discriminate].
  injection H as <-.
  unfold completeCheck_tick. rewrite He.
  destruct (truthyZ (_timeEnd st)) eqn:Hset.
  - specialize (Hte eq_refl).
    unfold resolve, clearInterval; simpl.
    destruct (deferred st) eqn:Hdef; simpl; rewrite ?Hdef;
      (split; [|split; [reflexivity|]]);
      repeat split; try assumption; try lia; try discriminate;
      try (rewrite Hset; assumption); try (intros; rewrite Hset; auto; fail);
      try (intros; rewrite Ht, Hte; eexists; reflexivity).
  - destruct (now - _timeStart st >? maxRuntimeSeconds (qo st) * 1000).
    + unfold reject, clearInterval; simpl.
      destruct (deferred st) eqn:Hdef; simpl; rewrite ?Hdef;
        (split; [|split; [reflexivity|]]);
        repeat split; try assumption; try lia; try discriminate;
        try (rewrite Hset; assumption); try (intros; rewrite Hset; auto; fail).
    + split; [|split; [reflexivity|]];
        repeat split; try assumption; try lia; try discriminate;
        try (rewrite Hset; assumption); try (intros; rewrite Hset; auto; fail).
      rewrite Hcc. exact Hd.
Qed.

(** A turn of a run in which the clock is past the epoch and the process
    capability does not fail. *)
Definition benign (ne : Z * event) : Prop :=
  0 < fst ne /\ isProcessError (snd ne) = false.

Lemma arrayInv_step (N now : Z) (e : event) (st st' : state) :
  arrayInv N st -> 0 < now -> isProcessError e = false ->
  step now e st = Some st' -> arrayInv N st'.
Proof.
  intros Hinv Hnow He H.
  pose proof Hinv as ((_ & _ & Hc & Hw & _) & _).
  destruct e; try discriminate He.
  - simpl in H. rewrite Hc in H. discriminate.
  - simpl in H. rewrite Hc in H. discriminate.
  - simpl in H. rewrite Hw in H. discriminate.
  - eapply arrayInv_ProcessSuccess; eassumption.
  - eapply arrayInv_ProcessDelivered; eassumption.
  - eapply arrayInv_Tick; eassumption.
Qed.

Lemma arrayInv_run (N : Z) (tr : list (Z * event)) (st st' : state) :
  arrayInv N st -> Forall benign tr -> run tr st = Some st' -> arrayInv N st'.
Proof.
  revert st; induction tr as [|[now e] tr IH]; intros st Hinv Hb H; simpl in H.
  - injection H as <-. exact Hinv.
  - destruct (step now e st) as [st1|] eqn:Hs; [|discriminate].
    inversion Hb as [|? ? [Hnow He] Hb']; subst. simpl in *.
    eapply IH; [|exact Hb'|exact H]. eapply arrayInv_step; eassumption.
Qed.

(** From every state of such a run in which the promise is still pending,
    letting the pending process calls succeed and their wrappers deliver,
    and then letting the completion check tick, resolves the promise. *)
Lemma array_completes (N now : Z) (n : nat) :
  0 < now ->
  forall st : state,
    (workLeft st < n)%nat -> arrayInv N st -> deferred st = Pending ->
    exists tr st',
      Forall benign tr /\ run tr st = Some st' /\ doneWith N (deferred st').
Proof.
  intros Hnow. induction n as [|n IH]; intros st Hwork Hinv Hpend; [lia|].
  destruct (procCalls st) as [|item calls] eqn:Hcalls.
  - destruct (procWrappers st) as [|w] eqn:Hwr.
    + (* nothing in flight: every item is processed, the tick resolves *)
      pose proof Hinv as (_ & HN & _ & _ & Hl & _ & Hsum & Hpc & Hsat & _ & Hdone & Hd).
      rewrite Hpend in Hd. rewrite Hcalls, Hwr in *. simpl in *.
      assert (Hfin : processed (qo st) = N).
      { destruct Hsat as [Hq|[Hq|Hq]]; [rewrite Hq in Hsum; simpl in Hsum; lia
                                       | lia | exact Hq]. }
      destruct (step now Tick st) as [st'|] eqn:Hs;
        [|simpl in Hs; rewrite Hd in Hs; discriminate].
      destruct (arrayInv_Tick N now st st' Hinv Hs) as (_ & _ & Hres).
      exists [(now, Tick)], st'. split; [|split].
      * constructor; [split; [exact Hnow | reflexivity] | constructor].
      * cbn [run]. rewrite Hs. reflexivity.
      * apply Hres; [exact Hpend | apply Hdone; [exact Hfin | reflexivity]].
    + destruct (step now ProcessDelivered st) as [st1|] eqn:Hs;
        [|simpl in Hs; rewrite Hwr in Hs; discriminate].
      destruct (arrayInv_ProcessDelivered N now st st1 Hinv Hnow Hs)
        as (Hinv1 & Hd1 & Hw1).
      destruct (IH st1) as (tr & st' & Hb & Hrun & Hres);
        [lia | exact Hinv1 | congruence |].
      exists ((now, ProcessDelivered) :: tr), st'. split; [|split].
      * constructor; [split; [exact Hnow | reflexivity] | exact Hb].
      * cbn [run]. rewrite Hs. exact Hrun.
      * exact Hres.
  - destruct (step now (ProcessSuccess O) st) as [st1|] eqn:Hs;
      [|simpl in Hs; rewrite Hcalls in Hs; discriminate].
    destruct (arrayInv_ProcessSuccess N now O st st1 Hinv Hnow Hs)
      as (Hinv1 & Hd1 & Hw1).
    destruct (IH st1) as (tr & st' & Hb & Hrun & Hres);
      [lia | exact Hinv1 | congruence |].
    exists ((now, ProcessSuccess O) :: tr), st'. split; [|split].
    + constructor; [split; [exact Hnow | reflexivity] | exact Hb].
    + cbn [run]. rewrite Hs. exact Hrun.
    + exact Hres.
Qed.

(** C9 (as amended).  For a non-empty array of [N] items, with [maxLimit]
    unset, the processed counter starting at zero and [processingLimit] at
    least one: [total] is [N] when [fetchAndProcess] returns and the items
    handed to the process capability followed by the backlog are the array;
    no fetch is ever issued, whatever happens during the run; and as long
    as no process call fails, a resolved promise carries
    [{ status: "done", fetched: N, processed: N }], and from every state in
    which the promise is still pending the run can be continued to such a
    resolution. *)
Theorem array_run_completes
    (now : Z) (items : list value) (fopts : fetchOptions) (qopts : queueOptions) :
  items <> [] ->
  truthyZ (maxLimit fopts) = false ->
  processed qopts = 0 ->
  1 <= processingLimit qopts ->
  0 < now ->
  let N := Z.of_nat (length items) in
  let s0 := fetchAndProcess now (SrcArray items) fopts qopts in
  total (fo s0) = Some N /\
  procCalls s0 ++ _queue s0 = items /\
  (forall tr st, run tr s0 = Some st ->
     fetchCalls st = [] /\ fetchWrappers st = [] /\ _requestsConcurrent st = 0) /\
  (forall tr st, Forall benign tr -> run tr s0 = Some st ->
     (forall r, deferred st = Resolved r -> doneWith N (deferred st)) /\
     (deferred st = Pending ->
      exists tr' st',
        Forall benign tr' /\ run tr' st = Some st' /\ doneWith N (deferred st'))).
Proof.
  intros Hne Hm Hp Hl Hnow N s0.
  pose proof (arrayInv_init now items fopts qopts Hne Hm Hp Hl) as Hinv.
  fold N s0 in Hinv.
  split; [|split; [|split]].
  - destruct Hinv as ((_ & Ht & _) & _). exact Ht.
  - subst s0. unfold fetchAndProcess. cbv zeta.
    destruct items as [|item items]; [congruence|].
    frames. destr. simpl in *. congruence.
  - intros tr st Hrun.
    destruct Hinv as (Hb & _).
    pose proof (arrayBound_run N tr s0 st Hb Hrun) as (_ & _ & Hc & Hw & Hr & _).
    auto.
  - intros tr st Hb Hrun.
    pose proof (arrayInv_run N tr s0 st Hinv Hb Hrun) as Hst.
    split.
    + intros r Hr. destruct Hst as (_ & _ & _ & _ & _ & _ & _ & _ & _ & _ & _ & Hd).
      rewrite Hr in Hd. rewrite Hr. exact Hd.
    + intros Hpend.
      apply (array_completes N now (S (workLeft st)) Hnow st); auto.
Qed.

Lemma array_run_completes_witness :
  let items := [VNum 1; VNum 2] in
  let N := Z.of_nat (length items) in
  let s0 := fetchAndProcess 1000 (SrcArray items) default_fetchOptions
              default_queueOptions in
  total (fo s0) = Some N /\
  procCalls s0 ++ _queue s0 = items /\
  (forall tr st, run tr s0 = Some st ->
     fetchCalls st = [] /\ fetchWrappers st = [] /\ _requestsConcurrent st = 0) /\
  (forall tr st, Forall benign tr -> run tr s0 = Some st ->
     (forall r, deferred st = Resolved r -> doneWith N (deferred st)) /\
     (deferred st = Pending ->
      exists tr' st',
        Forall benign tr' /\ run tr' st = Some st' /\ doneWith N (deferred st'))).
Proof.
  apply (array_run_completes 1000 [VNum 1; VNum 2] default_fetchOptions
           default_queueOptions);
    [discriminate | reflexivity | reflexivity | simpl; lia | lia].
Defined.

(** With the default options a two-item array runs to
    [{ status: "done", fetched: 2, processed: 2, time: 0.005 }]. *)
Example two_items_done :
  exists st,
    run [(1001, ProcessSuccess O); (1002, ProcessDelivered);
         (1003, ProcessSuccess O); (1004, ProcessDelivered); (2000, Tick)]
      (fetchAndProcess 1000 (SrcArray [VNum 1; VNum 2]) default_fetchOptions
         default_queueOptions) = Some st /\
    deferred st = Resolved (ResDone (mkMeta (Some 2) 2 (seconds 4))) /\
    notifications st = [mkNotification 0 1 1; mkNotification 0 0 2].
Proof. eexists. split; [vm_compute; reflexivity|]. split; reflexivity. Qed.

(** Counterexample to C9 as stated: an array of two items with
    [maxLimit = 1] and a process delay of five seconds.  The first success
    makes the processed count equal to [maxLimit], so [_timeEnd] is stamped;
    the completion check, one second after the start, resolves the promise
    with [processed: 1] while the second item is still in the backlog. *)
Lemma array_resolved_before_all_processed :
  exists st,
    run [(1001, ProcessSuccess O); (2000, Tick)]
      (fetchAndProcess 1000 (SrcArray [VNum 1; VNum 2])
         (mkFetchOptions 50 0 (Some 1) false None 0)
         (mkQueueOptions 1 1 1000 15000 5000 0)) = Some st /\
    deferred st = Resolved (ResDone (mkMeta (Some 2) 1 (seconds 1))) /\
    processed (qo st) = 1 /\ _queue st = [VNum 2].
Proof. eexists. split; [vm_compute; reflexivity|]. repeat split; reflexivity. Qed.

(** * Completion *)

(** As long as the interval is armed the promise is pending. *)
Definition armedPending (st : state) : Prop :=
  completeCheck st = true -> deferred st = Pending.

Lemma armedPending_init (now : Z) (src : source)
    (fopts : fetchOptions) (qopts : queueOptions) :
  armedPending (fetchAndProcess now src fopts qopts).
Proof.
  unfold armedPending, fetchAndProcess. cbv zeta.
  destruct src as [[|item items]|].
  - simpl. discriminate.
  - frames. destr. simpl in *. congruence.
  - frames. destr. simpl in *. congruence.
Qed.

Lemma armedPending_step (now : Z) (e : event) (st st' : state) :
  armedPending st -> step now e st = Some st' -> armedPending st'.
Proof.
  unfold armedPending. intros Hinv H.
  step_inv H; handlers; frames; destr; case_ifs; simpl in *;
    try discriminate; try congruence; intros; auto;
    try (apply Hinv; congruence);
    try (assert (Hcc : completeCheck st = true) by congruence;
         specialize (Hinv Hcc); congruence).
Qed.

Lemma armedPending_run (tr : list (Z * event)) (st st' : state) :
  armedPending st -> run tr st = Some st' -> armedPending st'.
Proof.
  revert st; induction tr as [|[now e] tr IH]; intros st Hinv H; simpl in H.
  - injection H as <-. exact Hinv.
  - destruct (step now e st) as [st1|] eqn:Hs; [|discriminate].
    eapply IH; [|exact H]. eapply armedPending_step; eassumption.
Qed.

(** In non-paged mode [_timeEnd] is stamped only in a turn that ends with
    the processed count equal to [total] or to [maxLimit]. *)
Lemma step_stamp_nonpaged (now : Z) (e : event) (st st' : state) :
  paged (fo st) = false ->
  step now e st = Some st' ->
  _timeEnd st' <> _timeEnd st ->
  processed (qo st') = numZ (total (fo st')) \/
  (truthyZ (maxLimit (fo st')) = true /\
   processed (qo st') = numZ (maxLimit (fo st'))).
Proof.
  intros Hpg H Hch. step_inv H.
  all: try (exfalso; apply Hch; handlers; case_ifs; reflexivity).
  - (* FetchDelivered *)
    rewrite tryFetch_onItems_concat in *. frames. destr.
    unfold allProcessed in *.
    repeat match goal with
           | H : _timeEnd _ = (if ?c then _ else _) |- _ =>
             destruct c eqn:?
           end; simpl in *;
      try (left; replace (qo sf) with (qo st) by congruence;
           replace (total (fo sf)) with (total (fo st)) by congruence;
           replace (qo sp) with (qo st) in * by congruence;
           replace (fo sp) with (fo st) in * by congruence; lia);
      exfalso; apply Hch; congruence.
  - (* ProcessSuccess *)
    rewrite process_onSuccess_spec in *. cbv zeta in *.
    destruct (targetReached _ _) eqn:Htr;
      [|simpl in Hch; congruence].
    unfold targetReached in Htr. simpl in *. rewrite Hpg in Htr. simpl in Htr.
    rewrite orb_false_r in Htr. apply orb_true_iff in Htr.
    destruct Htr as [Htr|Htr]; [left; lia|].
    apply andb_true_iff in Htr. right. split; [tauto | lia].
  - (* ProcessDelivered *)
    unfold tryProcess_onDone in *. cbv zeta in *.
    set (s2 := notify _ _) in *.
    assert (Hs2 : fo s2 = fo st /\ qo s2 = qo st /\ _timeEnd s2 = _timeEnd st).
    { subst s2. unfold notify. simpl. destruct (deferred st); simpl; auto. }
    clearbody s2. destruct Hs2 as (E1 & E2 & E3).
    match goal with
    | |- context [if ?c then _ else _] => destruct c
    end; frames; destr; unfold allProcessed in *;
    repeat match goal with
           | H : _timeEnd _ = (if ?c then _ else _) |- _ =>
             destruct c eqn:?
           end; simpl in *;
      try (left;
           try (replace (qo sf) with (qo st) by congruence;
                replace (total (fo sf)) with (total (fo st)) by congruence);
           replace (qo sp) with (qo st) in * by congruence;
           replace (fo sp) with (fo st) in * by congruence;
           replace (qo s2) with (qo st) in * by congruence;
           replace (fo s2) with (fo st) in * by congruence; lia);
      exfalso; apply Hch; congruence.
Qed.

(** The completion target, for a processed count [p]: [total] in non-paged
    mode, [total * limit] in paged mode, or [maxLimit] when it is set. *)
Definition relevantTarget (st : state) (p : Z) : Prop :=
  (paged (fo st) = false /\ numZ (total (fo st)) = p) \/
  (paged (fo st) = true /\ numZ (total (fo st)) * limit (fo st) = p) \/
  (truthyZ (maxLimit (fo st)) = true /\ p = numZ (maxLimit (fo st))).

Lemma targetReached_iff (st : state) (p : Z) :
  targetReached st p = true <-> relevantTarget st p.
Proof.
  unfold targetReached, relevantTarget.
  rewrite !orb_true_iff, !andb_true_iff, negb_true_iff, !Z.eqb_eq. tauto.
Qed.

(** C1 (as amended).  In a run of [fetchAndProcess]:
    - a successful process call increments the processed count and stamps
      [_timeEnd] with the current time exactly when the incremented count
      equals the relevant target ([total] when not paged, [total * limit]
      when paged, or [maxLimit] when set); otherwise it leaves [_timeEnd]
      as it is;
    - in non-paged mode no turn changes [_timeEnd] unless it ends with the
      processed count equal to [total], or to [maxLimit] when set;
    - once [_timeEnd] is stamped, the next completion check settles the
      run: with [{ status: "done", fetched: total, processed: processed,
      time: (_timeEnd - _timeStart)/1000 }] when no error is recorded, and
      as failed with that error otherwise. *)
Theorem completion_detected_and_reported
    (now0 : Z) (src : source) (fopts : fetchOptions) (qopts : queueOptions)
    (tr : list (Z * event)) (st : state) (now : Z) (e : event) (st' : state) :
  run tr (fetchAndProcess now0 src fopts qopts) = Some st ->
  step now e st = Some st' ->
  (forall i, e = ProcessSuccess i ->
     processed (qo st') = processed (qo st) + 1 /\
     (relevantTarget st (processed (qo st) + 1) -> _timeEnd st' = Some now) /\
     (~ relevantTarget st (processed (qo st) + 1) -> _timeEnd st' = _timeEnd st)) /\
  (paged (fo st) = false ->
   _timeEnd st' <> _timeEnd st ->
   processed (qo st') = numZ (total (fo st')) \/
   (truthyZ (maxLimit (fo st')) = true /\
    processed (qo st') = numZ (maxLimit (fo st')))) /\
  (e = Tick ->
   truthyZ (_timeEnd st) = true ->
   (truthy (_err st) = false ->
    deferred st' =
    Resolved (ResDone {| fetched := total (fo st);
                         processedCount := processed (qo st);
                         time := seconds (numZ (_timeEnd st) - _timeStart st) |})) /\
   (truthy (_err st) = true ->
    exists m, deferred st' = Rejected (RejError (_err st) m))).
Proof.
  intros Hrun Hstep.
  pose proof (armedPending_run tr _ st (armedPending_init now0 src fopts qopts) Hrun)
    as Harmed.
  split; [|split].
  - intros i ->. cbn [step] in Hstep.
    destruct (procCalls st !! i); [|discriminate]. injection Hstep as <-.
    rewrite process_onSuccess_spec. cbv zeta.
    change (targetReached (set_procCalls (delete i (procCalls st)) st)
              (processed (qo (set_procCalls (delete i (procCalls st)) st)) + 1))
      with (targetReached st (processed (qo st) + 1)).
    pose proof (targetReached_iff st (processed (qo st) + 1)) as Hiff.
    destruct (targetReached st (processed (qo st) + 1)); simpl.
    + repeat split; auto. intros Hn. exfalso. apply Hn, Hiff. reflexivity.
    + repeat split; auto. intros Hy. apply Hiff in Hy. discriminate.
  - intros Hpg Hch. eapply step_stamp_nonpaged; eassumption.
  - intros -> Hset. cbn [step] in Hstep.
    destruct (completeCheck st) eqn:Hcc; [|discriminate].
    injection Hstep as <-. specialize (Harmed Hcc).
    unfold completeCheck_tick, resolve, reject, clearInterval.
    split; intros He; rewrite He.
    + rewrite Hset. simpl. rewrite Harmed. reflexivity.
    + simpl. rewrite Harmed. eexists. reflexivity.
Qed.

(** The one-item run after its item is processed and delivered. *)
Definition oneItemDone : state :=
  Eval vm_compute in
    tryProcess_onDone 1004
      (set_procWrappers O
         (process_onSuccess 1003 (set_procCalls [] oneItemRun))).

Lemma completion_detected_and_reported_witness :
  run [(1003, ProcessSuccess O); (1004, ProcessDelivered)] oneItemRun
    = Some oneItemDone /\
  step 2000 Tick oneItemDone = Some (completeCheck_tick 2000 oneItemDone) /\
  deferred (completeCheck_tick 2000 oneItemDone)
    = Resolved (ResDone (mkMeta (Some 1) 1 (seconds 4))).
Proof.
  split; [vm_compute; reflexivity|]. split; [vm_compute; reflexivity|].
  refine (proj1 (proj2 (proj2 (completion_detected_and_reported
            1000 (SrcArray [VNum 7]) default_fetchOptions default_queueOptions
            [(1003, ProcessSuccess O); (1004, ProcessDelivered)] oneItemDone
            2000 Tick (completeCheck_tick 2000 oneItemDone) _ _))
            eq_refl _) _);
    vm_compute; reflexivity.
Defined.

(** Counterexample to C1 as stated.  With [requestLimit = 2] two fetches
    are issued at once.  The first reports a total of one and delivers the
    one item, which is processed: the processed count equals [total] and
    [_timeEnd] is stamped.  Then the second fetch fails.  The completion
    check gives the error precedence and rejects the promise. *)
Definition completedThenFailed : list (Z * event) :=
  [ (1100, FetchResponse O 1 [VNum 7]);
    (1101, FetchDelivered O);
    (1110, ProcessSuccess O);
    (1120, FetchError O (VStr "ECONNRESET")) ].

Lemma completed_run_settles_as_failed :
  exists st st',
    run completedThenFailed
      (fetchAndProcess 1000 SrcFunc default_fetchOptions
         (mkQueueOptions 2 1 1000 15000 0 0)) = Some st /\
    paged (fo st) = false /\ total (fo st) = Some 1 /\ processed (qo st) = 1 /\
    _timeEnd st = Some 1110 /\
    step 2000 Tick st = Some st' /\
    deferred st' =
    Rejected (RejError (VStr "ECONNRESET") (mkMeta (Some 1) 1 (seconds 1000))).
Proof.
  eexists; eexists.
  split; [vm_compute; reflexivity|].
  repeat split; vm_compute; reflexivity.
Qed.

(** In paged mode the schedulers still compare the processed count with
    [total] itself.  Two pages of five items, [processingLimit = 1]: after
    the second item the callback in [tryProcess] calls [tryProcess], whose
    first line stamps [_timeEnd], and the run is reported done with
    [processed: 2] while three items wait in the backlog. *)
Example paged_run_stops_at_total :
  exists st,
    run [ (1100, FetchResponse O 2 [VNum 1; VNum 2; VNum 3; VNum 4; VNum 5]);
          (1101, FetchDelivered O);
          (1110, ProcessSuccess O); (1111, ProcessDelivered);
          (1120, ProcessSuccess O); (1121, ProcessDelivered);
          (2000, Tick) ]
      (fetchAndProcess 1000 SrcFunc
         (mkFetchOptions 5 0 None true None 0) default_queueOptions) = Some st /\
    deferred st = Resolved (ResDone (mkMeta (Some 2) 2 (seconds 121))) /\
    _queue st = [VNum 3; VNum 4; VNum 5].
Proof. eexists. split; [vm_compute; reflexivity|]. split; reflexivity. Qed.

(** * Further properties of the engine *)

(** ** Configuration *)

(** What no callback ever assigns: the option fields other than [offset],
    [total] and [processed], the start time and the source. *)
Definition sameConfig (st st' : state) : Prop :=
  limit (fo st') = limit (fo st) /\ maxLimit (fo st') = maxLimit (fo st) /\
  paged (fo st') = paged (fo st) /\ fetchTimeout (fo st') = fetchTimeout (fo st) /\
  requestLimit (qo st') = requestLimit (qo st) /\
  processingLimit (qo st') = processingLimit (qo st) /\
  queueLimit (qo st') = queueLimit (qo st) /\
  maxRuntimeSeconds (qo st') = maxRuntimeSeconds (qo st) /\
  processTimeout (qo st') = processTimeout (qo st) /\
  _timeStart st' = _timeStart st /\ _fetchFunc st' = _fetchFunc st.

Lemma sameConfig_refl (st : state) : sameConfig st st.
Proof. unfold sameConfig. repeat split. Qed.

Lemma sameConfig_trans (s1 s2 s3 : state) :
  sameConfig s1 s2 -> sameConfig s2 s3 -> sameConfig s1 s3.
Proof. unfold sameConfig. intros H1 H2. destr. repeat split; congruence. Qed.

Lemma tryProcess_sameConfig (now : Z) (st : state) :
  sameConfig st (tryProcess now st).
Proof.
  pose proof (tryProcess_frame now st) as H. unfold processFrame in H. destr.
  unfold sameConfig. repeat split; congruence.
Qed.

Lemma tryFetch_sameConfig (now : Z) (st : state) :
  sameConfig st (tryFetch now st).
Proof.
  pose proof (tryFetch_frame now st) as H. unfold fetchFrame in H. destr.
  unfold sameConfig. repeat split; congruence.
Qed.

Lemma step_sameConfig (now : Z) (e : event) (st st' : state) :
  step now e st = Some st' -> sameConfig st st'.
Proof.
  intros H. step_inv H.
  - unfold fetch_onResponse. cbv zeta. case_ifs; unfold sameConfig; simpl;
      repeat split; reflexivity.
  - unfold sameConfig; simpl; repeat split; reflexivity.
  - rewrite tryFetch_onItems_concat.
    eapply sameConfig_trans; [|apply tryFetch_sameConfig].
    eapply sameConfig_trans; [|apply tryProcess_sameConfig].
    unfold sameConfig; simpl; repeat split; reflexivity.
  - unfold sameConfig; simpl; repeat split; reflexivity.
  - rewrite process_onSuccess_spec. cbv zeta.
    case_ifs; unfold sameConfig; simpl; repeat split; reflexivity.
  - unfold sameConfig; simpl; repeat split; reflexivity.
  - unfold tryProcess_onDone. cbv zeta.
    set (s2 := notify _ _).
    assert (H2 : sameConfig st s2).
    { subst s2. unfold notify. simpl.
      destruct (deferred st); unfold sameConfig; simpl; repeat split; reflexivity. }
    clearbody s2.
    pose proof (tryProcess_sameConfig now s2) as H3.
    destruct (_ && _).
    + eapply sameConfig_trans; [exact H2|].
      eapply sameConfig_trans; [exact H3|]. apply tryFetch_sameConfig.
    + eapply sameConfig_trans; eassumption.
  - unfold completeCheck_tick, resolve, reject, clearInterval.
    case_ifs; simpl; case_ifs; unfold sameConfig; simpl; repeat split; reflexivity.
Qed.

Lemma run_sameConfig (tr : list (Z * event)) (st st' : state) :
  run tr st = Some st' -> sameConfig st st'.
Proof.
  revert st; induction tr as [|[now e] tr IH]; intros st H; simpl in H.
  - injection H as <-. apply sameConfig_refl.
  - destruct (step now e st) as [st1|] eqn:Hs; [|discriminate].
    eapply sameConfig_trans; [eapply step_sameConfig; exact Hs | apply IH; exact H].
Qed.

Lemma init_config (now : Z) (src : source)
    (fopts : fetchOptions) (qopts : queueOptions) :
  let s0 := fetchAndProcess now src fopts qopts in
  limit (fo s0) = limit fopts /\ maxLimit (fo s0) = maxLimit fopts /\
  paged (fo s0) = paged fopts /\
  requestLimit (qo s0) = requestLimit qopts /\
  processingLimit (qo s0) = processingLimit qopts /\
  queueLimit (qo s0) = queueLimit qopts /\
  maxRuntimeSeconds (qo s0) = maxRuntimeSeconds qopts /\
  _timeStart s0 = now /\ _fetchFunc s0 = src.
Proof.
  cbv zeta. unfold fetchAndProcess. cbv zeta.
  destruct src as [[|item items]|].
  - simpl. repeat split.
  - pose proof (tryProcess_sameConfig now
      (set_queue (item :: items)
         (set_total (Some (Z.of_nat (length (item :: items))))
            (mkState fopts qopts [] now None 0 0 (VBool false)
               (SrcArray (item :: items)) Pending [] true [] [] [] O)))) as H.
    unfold sameConfig in H. simpl in H. destr. repeat split; assumption.
  - pose proof (tryFetch_sameConfig now
      (mkState fopts qopts [] now None 0 0 (VBool false) SrcFunc Pending []
         true [] [] [] O)) as H.
    unfold sameConfig in H. simpl in H. destr. repeat split; assumption.
Qed.

(** ** Settlement *)

(** The interval is armed exactly as long as the promise is pending. *)
Definition armedIffPending (st : state) : Prop :=
  completeCheck st = true <-> deferred st = Pending.

Lemma armedIffPending_init (now : Z) (src : source)
    (fopts : fetchOptions) (qopts : queueOptions) :
  armedIffPending (fetchAndProcess now src fopts qopts).
Proof.
  unfold armedIffPending, fetchAndProcess. cbv zeta.
  destruct src as [[|item items]|].
  - simpl. split; discriminate.
  - frames. destr. simpl in *. split; congruence.
  - frames. destr. simpl in *. split; congruence.
Qed.

Lemma armedIffPending_step (now : Z) (e : event) (st st' : state) :
  armedIffPending st -> step now e st = Some st' -> armedIffPending st'.
Proof.
  unfold armedIffPending. intros [H1 H2] H.
  step_inv H.
  1-7: handlers; frames; destr; case_ifs; simpl in *;
       split; intros; try congruence;
       try (assert (Hp : deferred st = Pending) by congruence;
            specialize (H2 Hp); congruence);
       try (assert (Hc : completeCheck st = true) by congruence;
            specialize (H1 Hc); congruence).
  specialize (H1 eq_refl).
  unfold completeCheck_tick, resolve, reject, clearInterval.
  case_ifs; simpl in *; split; intros; congruence.
Qed.

Lemma armedIffPending_run (tr : list (Z * event)) (st st' : state) :
  armedIffPending st -> run tr st = Some st' -> armedIffPending st'.
Proof.
  revert st; induction tr as [|[now e] tr IH]; intros st Hinv H; simpl in H.
  - injection H as <-. exact Hinv.
  - destruct (step now e st) as [st1|] eqn:Hs; [|discriminate].
    eapply IH; [|exact H]. eapply armedIffPending_step; eassumption.
Qed.

(** Nothing that the caller can observe changes after settlement. *)
Lemma step_settled (now : Z) (e : event) (st st' : state) :
  deferred st <> Pending ->
  step now e st = Some st' ->
  deferred st' = deferred st /\ notifications st' = notifications st.
Proof.
  intros Hd H. step_inv H.
  1-7: handlers; try contradiction; frames; destr; case_ifs; simpl in *;
       split; congruence.
  unfold completeCheck_tick, resolve, reject, clearInterval.
  case_ifs; simpl; try contradiction; split; congruence.
Qed.

Lemma run_settled (tr : list (Z * event)) (st st' : state) :
  deferred st <> Pending ->
  run tr st = Some st' ->
  deferred st' = deferred st /\ notifications st' = notifications st.
Proof.
  revert st; induction tr as [|[now e] tr IH]; intros st Hd H; simpl in H.
  - injection H as <-. split; reflexivity.
  - destruct (step now e st) as [st1|] eqn:Hs; [|discriminate].
    destruct (step_settled now e st st1 Hd Hs) as [E1 E2].
    destruct (IH st1) as [E3 E4]; [congruence | exact H |].
    split; congruence.
Qed.

(** X1.  The outcome is settled at most once.  As soon as the promise
    returned by [fetchAndProcess] is resolved or rejected, the interval of
    the completion check is cleared, so the check never runs again; and
    whatever operations still complete afterwards, neither the outcome nor
    the notifications delivered to the caller change. *)
Theorem outcome_settled_once
    (now0 : Z) (src : source) (fopts : fetchOptions) (qopts : queueOptions)
    (tr : list (Z * event)) (st : state) :
  run tr (fetchAndProcess now0 src fopts qopts) = Some st ->
  deferred st <> Pending ->
  completeCheck st = false /\
  (forall now, step now Tick st = None) /\
  (forall tr' st', run tr' st = Some st' ->
     deferred st' = deferred st /\ notifications st' = notifications st /\
     completeCheck st' = false).
Proof.
  intros Hrun Hd.
  pose proof (armedIffPending_run tr _ st
                (armedIffPending_init now0 src fopts qopts) Hrun) as Harm.
  assert (Hcc : completeCheck st = false).
  { destruct Harm as [H1 _]. destruct (completeCheck st); [|reflexivity].
    exfalso. apply Hd, H1. reflexivity. }
  split; [exact Hcc|]. split.
  - intros now. simpl. rewrite Hcc. reflexivity.
  - intros tr' st' Hrun'.
    destruct (run_settled tr' st st' Hd Hrun') as [E1 E2].
    repeat split; try assumption.
    pose proof (armedIffPending_run tr' st st' Harm Hrun') as [H1 _].
    destruct (completeCheck st'); [|reflexivity].
    exfalso. apply Hd. rewrite <- E1. apply H1. reflexivity.
Qed.

Lemma outcome_settled_once_witness :
  completeCheck (completeCheck_tick 2000 oneItemDone) = false /\
  (forall now, step now Tick (completeCheck_tick 2000 oneItemDone) = None) /\
  (forall tr' st', run tr' (completeCheck_tick 2000 oneItemDone) = Some st' ->
     deferred st' = deferred (completeCheck_tick 2000 oneItemDone) /\
     notifications st' = notifications (completeCheck_tick 2000 oneItemDone) /\
     completeCheck st' = false).
Proof.
  apply (outcome_settled_once 1000 (SrcArray [VNum 7]) default_fetchOptions
           default_queueOptions
           [(1003, ProcessSuccess O); (1004, ProcessDelivered); (2000, Tick)]);
    [vm_compute; reflexivity | vm_compute; discriminate].
Defined.

(** ** Timeout *)






(** A run that is neither completed nor failed is timed out by the first
    completion check after the budget: a five-second run of an array item
    that never settles, with [maxRuntimeSeconds = 2]. *)
Example unsettled_item_times_out :
  exists st,
    run [(2000, Tick); (3000, Tick); (4000, Tick)]
      (fetchAndProcess 1000 (SrcArray [VNum 7]) default_fetchOptions
         (mkQueueOptions 1 1 1000 2 0 0)) = Some st /\
    deferred st = Rejected RejTimeout /\ completeCheck st = false.
Proof. eexists. split; [vm_compute; reflexivity|]. split; reflexivity. Qed.

(** ** Counting *)

Definition isProcessSuccess (e : event) : bool :=
  match e with ProcessSuccess _ => true | _ => false end.

(** The number of successful process calls in a trace. *)
Fixpoint successes (tr : list (Z * event)) : Z :=
  match tr with
  | [] => 0
  | (_, e) :: tr' => (if isProcessSuccess e then 1 else 0) + successes tr'
  end.

(** The processed counter, the notifications and the wrappers awaiting
    delivery after [c] successful process calls, in a run that started with
    the counter at [p0]. *)
Definition accounted (p0 c : Z) (st : state) : Prop :=
  processed (qo st) = p0 + c /\
  Z.of_nat (length (notifications st)) + Z.of_nat (procWrappers st) <= c /\
  (deferred st = Pending ->
   Z.of_nat (length (notifications st)) + Z.of_nat (procWrappers st) = c) /\
  Forall (fun n => p0 + 1 <= n_processed n <= processed (qo st))
    (notifications st).

Lemma accounted_step (p0 c now : Z) (e : event) (st st' : state) :
  accounted p0 c st ->
  step now e st = Some st' ->
  accounted p0 (c + (if isProcessSuccess e then 1 else 0)) st'.
Proof.
  unfold accounted. intros (Hp & Hle & Heq & Hall) H.
  assert (Hmono : forall q, processed (qo st) <= q ->
            Forall (fun n => p0 + 1 <= n_processed n <= q) (notifications st)).
  { intros q Hq. eapply Forall_impl; [exact Hall|]. simpl. intros; lia. }
  step_inv H; cbn [isProcessSuccess].
  1-4, 6: handlers; frames; destr; case_ifs; simpl in *;
    repeat match goal with
           | H : qo _ = _ |- _ => rewrite H in *; clear H
           | H : notifications _ = _ |- _ => rewrite H in *; clear H
           | H : procWrappers _ = _ |- _ => rewrite H in *; clear H
           | H : deferred _ = _ |- _ => rewrite H in *; clear H
           end;
    repeat split; try lia; try (intros; lia); try assumption;
    try (intros Hd; specialize (Heq Hd); lia).
  - (* ProcessSuccess *)
    rewrite process_onSuccess_spec. cbv zeta.
    case_ifs; simpl; repeat split; try lia;
      try (intros Hd; specialize (Heq Hd); lia);
      apply Hmono; lia.
  - (* ProcessDelivered *)
    unfold tryProcess_onDone. cbv zeta. unfold notify; simpl.
    destruct (deferred st) eqn:Hd; frames; destr; case_ifs; simpl in *;
      repeat match goal with
             | H : qo _ = _ |- _ => rewrite H in *; clear H
             | H : notifications _ = _ |- _ => rewrite H in *; clear H
             | H : procWrappers _ = _ |- _ => rewrite H in *; clear H
             | H : deferred _ = _ |- _ => rewrite H in *; clear H
             end;
      rewrite ?length_app; simpl;
      try specialize (Heq eq_refl);
      repeat split; try lia; try discriminate; try assumption;
      try (intros; lia);
      try (apply Forall_app; split; [assumption|];
           constructor; [simpl; lia | constructor]).
  - (* Tick *)
    unfold completeCheck_tick, resolve, reject, clearInterval.
    case_ifs; simpl; repeat split; try lia; try assumption; try discriminate;
      try (intros Hd; specialize (Heq Hd); lia).
Qed.

Lemma accounted_run (p0 c : Z) (tr : list (Z * event)) (st st' : state) :
  accounted p0 c st ->
  run tr st = Some st' ->
  accounted p0 (c + successes tr) st'.
Proof.
  revert c st; induction tr as [|[now e] tr IH]; intros c st Hinv H; simpl in H.
  - injection H as <-. simpl. replace (c + 0) with c by lia. exact Hinv.
  - destruct (step now e st) as [st1|] eqn:Hs; [|discriminate].
    simpl successes.
    replace (c + ((if isProcessSuccess e then 1 else 0) + successes tr))
      with (c + (if isProcessSuccess e then 1 else 0) + successes tr) by lia.
    eapply IH; [|exact H]. eapply accounted_step; eassumption.
Qed.

Lemma accounted_init (now : Z) (src : source)
    (fopts : fetchOptions) (qopts : queueOptions) :
  accounted (processed qopts) 0 (fetchAndProcess now src fopts qopts).
Proof.
  unfold accounted, fetchAndProcess. cbv zeta.
  destruct src as [[|item items]|].
  - simpl. repeat split; try lia. constructor.
  - frames. destr. simpl in *.
    repeat match goal with
           | H : qo _ = _ |- _ => rewrite H in *; clear H
           | H : notifications _ = _ |- _ => rewrite H in *; clear H
           | H : procWrappers _ = _ |- _ => rewrite H in *; clear H
           end.
    simpl. repeat split; try lia. constructor.
  - frames. destr. simpl in *.
    repeat match goal with
           | H : qo _ = _ |- _ => rewrite H in *; clear H
           | H : notifications _ = _ |- _ => rewrite H in *; clear H
           | H : procWrappers _ = _ |- _ => rewrite H in *; clear H
           end.
    simpl. repeat split; try lia. constructor.
Qed.

(** X3.  The processed counter counts the successful process calls: after
    any run it is the initial counter plus the number of process calls that
    succeeded, whatever else happened.  Every success is followed by one
    progress notification: while the promise is pending, the notifications
    delivered so far plus the completions whose callback has not run yet
    are as many as the successes (after settlement they can only be fewer),
    and every notification reports a processed count between one more than
    the initial counter and the current counter. *)
Theorem processed_counts_successes
    (now0 : Z) (src : source) (fopts : fetchOptions) (qopts : queueOptions)
    (tr : list (Z * event)) (st : state) :
  run tr (fetchAndProcess now0 src fopts qopts) = Some st ->
  processed (qo st) = processed qopts + successes tr /\
  Z.of_nat (length (notifications st)) + Z.of_nat (procWrappers st)
    <= successes tr /\
  (deferred st = Pending ->
   Z.of_nat (length (notifications st)) + Z.of_nat (procWrappers st)
     = successes tr) /\
  Forall (fun n => processed qopts + 1 <= n_processed n <= processed (qo st))
    (notifications st).
Proof.
  intros Hrun.
  pose proof (accounted_run _ 0 tr _ st
                (accounted_init now0 src fopts qopts) Hrun) as H.
  unfold accounted in H. simpl in H. exact H.
Qed.

Lemma processed_counts_successes_witness :
  processed (qo oneItemDone) = processed default_queueOptions
    + successes [(1003, ProcessSuccess O); (1004, ProcessDelivered)] /\
  Z.of_nat (length (notifications oneItemDone))
    + Z.of_nat (procWrappers oneItemDone)
    <= successes [(1003, ProcessSuccess O); (1004, ProcessDelivered)] /\
  (deferred oneItemDone = Pending ->
   Z.of_nat (length (notifications oneItemDone))
     + Z.of_nat (procWrappers oneItemDone)
     = successes [(1003, ProcessSuccess O); (1004, ProcessDelivered)]) /\
  Forall (fun n => processed default_queueOptions + 1 <= n_processed n
                   <= processed (qo oneItemDone))
    (notifications oneItemDone).
Proof.
  apply (processed_counts_successes 1000 (SrcArray [VNum 7]) default_fetchOptions
           default_queueOptions [(1003, ProcessSuccess O); (1004, ProcessDelivered)]).
  vm_compute. reflexivity.
Defined.

(** ** Concurrency gates *)

Lemma tryFetch_loop_rc_bound (fuel : nat) (now : Z) (st : state) :
  _requestsConcurrent (tryFetch_loop fuel now st)
  <= Z.max (_requestsConcurrent st) (requestLimit (qo st)).
Proof.
  revert st; induction fuel as [|fuel IH]; intros st; cbn [tryFetch_loop].
  - lia.
  - destruct (allProcessed st); [simpl; lia|].
    destruct (truthy (_err st)); [lia|].
    destruct (_requestsConcurrent st >=? requestLimit (qo st)) eqn:Hrc; [lia|].
    destruct (projectedBacklog st >=? queueLimit (qo st)); [lia|].
    destruct (truthyZ (total (fo st)) && (offset (fo st) >=? cursorBound st)); [lia|].
    destruct (truthyZ (maxLimit (fo st))
              && (offset (fo st) >=? numZ (maxLimit (fo st)))); [lia|].
    specialize (IH (issueFetch st)). simpl in IH. lia.
Qed.

Lemma tryProcess_loop_pc_bound (fuel : nat) (now : Z) (st : state) :
  _processingConcurrent (tryProcess_loop fuel now st)
  <= Z.max (_processingConcurrent st) (processingLimit (qo st)).
Proof.
  revert st; induction fuel as [|fuel IH]; intros st; cbn [tryProcess_loop].
  - lia.
  - destruct (allProcessed st); [simpl; lia|].
    destruct (truthy (_err st)); [lia|].
    destruct (_queue st) as [|item rest]; [lia|].
    destruct (_processingConcurrent st >=? processingLimit (qo st)) eqn:Hpc; [lia|].
    specialize (IH (issueProcess item rest st)). simpl in IH. lia.
Qed.

(** Neither counter exceeds its limit, and every pending operation is
    counted. *)
Definition gated (st : state) : Prop :=
  _requestsConcurrent st <= Z.max 0 (requestLimit (qo st)) /\
  _processingConcurrent st <= Z.max 0 (processingLimit (qo st)) /\
  0 <= lostFetchSlots st /\ 0 <= lostProcessSlots st.

Lemma gated_init (now : Z) (src : source)
    (fopts : fetchOptions) (qopts : queueOptions) :
  gated (fetchAndProcess now src fopts qopts).
Proof.
  unfold gated, lostFetchSlots, lostProcessSlots, fetchAndProcess. cbv zeta.
  destruct src as [[|item items]|].
  - simpl. lia.
  - match goal with
    | |- context [tryProcess ?now ?s] =>
      pose proof (tryProcess_loop_pc_bound (tryProcess_fuel s) now s) as Hb;
        fold (tryProcess now s) in Hb
    end.
    frames. destr. simpl in *.
    repeat match goal with
           | H : qo _ = _ |- _ => rewrite H in *; clear H
           | H : procCalls _ = _ |- _ => rewrite H in *; clear H
           | H : procWrappers _ = _ |- _ => rewrite H in *; clear H
           | H : fetchCalls _ = _ |- _ => rewrite H in *; clear H
           | H : fetchWrappers _ = _ |- _ => rewrite H in *; clear H
           end.
    simpl. lia.
  - match goal with
    | |- context [tryFetch ?now ?s] =>
      pose proof (tryFetch_loop_rc_bound (tryFetch_fuel s) now s) as Hb;
        fold (tryFetch now s) in Hb
    end.
    frames. destr. simpl in *.
    repeat match goal with
           | H : qo _ = _ |- _ => rewrite H in *; clear H
           | H : procCalls _ = _ |- _ => rewrite H in *; clear H
           | H : procWrappers _ = _ |- _ => rewrite H in *; clear H
           | H : fetchCalls _ = _ |- _ => rewrite H in *; clear H
           | H : fetchWrappers _ = _ |- _ => rewrite H in *; clear H
           end.
    simpl. lia.
Qed.

Lemma gated_step (now : Z) (e : event) (st st' : state) :
  gated st -> step now e st = Some st' -> gated st'.
Proof.
  intros (Hr & Hp & Hlf & Hlp) H.
  pose proof (step_lostSlots now e st st' H) as [Hf' Hp'].
  pose proof (step_sameConfig now e st st' H) as Hc.
  unfold sameConfig in Hc. destr.
  unfold gated. repeat split; try lia.
  - (* _requestsConcurrent *)
    replace (requestLimit (qo st')) with (requestLimit (qo st)) by congruence.
    clear Hf' Hp'. step_inv H.
    1-2, 4-6, 8: handlers; case_ifs; simpl; lia.
    + rewrite tryFetch_onItems_concat.
      match goal with
      | |- context [tryFetch ?now ?s] =>
        pose proof (tryFetch_loop_rc_bound (tryFetch_fuel s) now s) as Hb;
          fold (tryFetch now s) in Hb
      end.
      frames. destr. simpl in *.
      replace (qo sp) with (qo st) in * by congruence. lia.
    + unfold tryProcess_onDone. cbv zeta.
      set (s2 := notify _ _).
      assert (E : _requestsConcurrent s2 = _requestsConcurrent st /\ qo s2 = qo st).
      { subst s2. unfold notify. simpl. destruct (deferred st); simpl; auto. }
      clearbody s2. destruct E as [E1 E2].
      pose proof (tryProcess_frame now s2) as HP. unfold processFrame in HP.
      destruct HP as (_ & F2 & _ & F4 & _).
      pose proof (tryFetch_loop_rc_bound (tryFetch_fuel (tryProcess now s2)) now
                    (tryProcess now s2)) as Hb.
      fold (tryFetch now (tryProcess now s2)) in Hb.
      rewrite F2, F4, E1, E2 in Hb.
      match goal with
      | |- context [if ?c then _ else _] => destruct c
      end; [|rewrite F4]; lia.
  - (* _processingConcurrent *)
    replace (processingLimit (qo st')) with (processingLimit (qo st)) by congruence.
    clear Hf' Hp'. step_inv H.
    1-2, 4, 6, 8: handlers; case_ifs; simpl; lia.
    + rewrite tryFetch_onItems_concat.
      match goal with
      | |- context [tryProcess ?now ?s] =>
        pose proof (tryProcess_loop_pc_bound (tryProcess_fuel s) now s) as Hb;
          fold (tryProcess now s) in Hb
      end.
      frames. destr. simpl in *. lia.
    + rewrite process_onSuccess_spec. cbv zeta. case_ifs; simpl; lia.
    + unfold tryProcess_onDone. cbv zeta.
      set (s2 := notify _ _).
      assert (E : _processingConcurrent s2 = _processingConcurrent st - 1
                  /\ qo s2 = qo st).
      { subst s2. unfold notify. simpl. destruct (deferred st); simpl; auto. }
      clearbody s2. destruct E as [E1 E2].
      pose proof (tryProcess_loop_pc_bound (tryProcess_fuel s2) now s2) as Hb.
      fold (tryProcess now s2) in Hb.
      pose proof (tryFetch_frame now (tryProcess now s2)) as HF.
      unfold fetchFrame in HF.
      destruct HF as (_ & _ & _ & _ & _ & _ & _ & _ & F9 & _).
      rewrite E1, E2 in Hb.
      match goal with
      | |- context [if ?c then _ else _] => destruct c
      end; [rewrite F9|]; lia.
Qed.

Lemma gated_run (tr : list (Z * event)) (st st' : state) :
  gated st -> run tr st = Some st' -> gated st'.
Proof.
  revert st; induction tr as [|[now e] tr IH]; intros st Hinv H; simpl in H.
  - injection H as <-. exact Hinv.
  - destruct (step now e st) as [st1|] eqn:Hs; [|discriminate].
    eapply IH; [|exact H]. eapply gated_step; eassumption.
Qed.

(** X4.  The concurrency gates hold throughout a run: the fetch calls that
    are pending (not yet settled, or settled with the callback not yet
    run) never outnumber [_requestsConcurrent], which never exceeds
    [requestLimit]; likewise the pending process calls,
    [_processingConcurrent] and [processingLimit].  (A negative limit
    counts as zero.) *)
Theorem concurrency_limits_respected
    (now0 : Z) (src : source) (fopts : fetchOptions) (qopts : queueOptions)
    (tr : list (Z * event)) (st : state) :
  run tr (fetchAndProcess now0 src fopts qopts) = Some st ->
  Z.of_nat (length (fetchCalls st)) + Z.of_nat (length (fetchWrappers st))
    <= _requestsConcurrent st /\
  _requestsConcurrent st <= Z.max 0 (requestLimit qopts) /\
  Z.of_nat (length (procCalls st)) + Z.of_nat (procWrappers st)
    <= _processingConcurrent st /\
  _processingConcurrent st <= Z.max 0 (processingLimit qopts).
Proof.
  intros Hrun.
  pose proof (gated_run tr _ st (gated_init now0 src fopts qopts) Hrun)
    as (Hr & Hp & Hlf & Hlp).
  pose proof (run_sameConfig tr _ st Hrun) as Hc.
  pose proof (init_config now0 src fopts qopts) as Hi. cbv zeta in Hi.
  unfold sameConfig in Hc. destr.
  unfold lostFetchSlots, lostProcessSlots in *.
  replace (requestLimit qopts) with (requestLimit (qo st)) by congruence.
  replace (processingLimit qopts) with (processingLimit (qo st)) by congruence.
  lia.
Qed.

(** A run in fetch mode used to illustrate the properties below:
    [requestLimit = 2], so two fetches are issued at once; the first
    response reports three items, the first of which gets processed. *)
Definition twoFetchRun : state :=
  fetchAndProcess 1000 SrcFunc default_fetchOptions
    (mkQueueOptions 2 1 1000 15000 0 0).

Definition twoFetchTrace : list (Z * event) :=
  [ (1100, FetchResponse O 3 [VNum 1; VNum 2; VNum 3]);
    (1101, FetchDelivered O);
    (1110, ProcessSuccess O);
    (1111, ProcessDelivered) ].

Definition twoFetchState : state :=
  Eval vm_compute in
    match run twoFetchTrace twoFetchRun with
    | Some st => st
    | None => twoFetchRun
    end.

Lemma twoFetchState_reached : run twoFetchTrace twoFetchRun = Some twoFetchState.
Proof. vm_compute. reflexivity. Qed.

Lemma concurrency_limits_respected_witness :
  Z.of_nat (length (fetchCalls twoFetchState))
    + Z.of_nat (length (fetchWrappers twoFetchState))
    <= _requestsConcurrent twoFetchState /\
  _requestsConcurrent twoFetchState <= Z.max 0 2 /\
  Z.of_nat (length (procCalls twoFetchState))
    + Z.of_nat (procWrappers twoFetchState)
    <= _processingConcurrent twoFetchState /\
  _processingConcurrent twoFetchState <= Z.max 0 1.
Proof.
  apply (concurrency_limits_respected 1000 SrcFunc default_fetchOptions
           (mkQueueOptions 2 1 1000 15000 0 0) twoFetchTrace).
  vm_compute. reflexivity.
Defined.

(** ** The backlog throttle *)

(** Every response in the trace carries at most [L] items. *)
Definition pageBounded (L : Z) (tr : list (Z * event)) : Prop :=
  Forall (fun ne => match snd ne with
                    | FetchResponse _ _ items => Z.of_nat (length items) <= L
                    | _ => True
                    end) tr.

Definition settlementBounded (L : Z) (w : settlement) : Prop :=
  match w with
  | Fulfilled items => Z.of_nat (length items) <= L
  | Failure _ => True
  end.

(** The backlog plus one page for every fetch that can still deliver. *)
Definition backlogDemand (st : state) : Z :=
  queueLength st
  + limit (fo st) * (Z.of_nat (length (fetchCalls st))
                     + Z.of_nat (length (fetchWrappers st))).

Lemma tryFetch_loop_backlog (fuel : nat) (now : Z) (st : state) :
  (fetchCalls (tryFetch_loop fuel now st) = fetchCalls st /\
   _requestsConcurrent (tryFetch_loop fuel now st) = _requestsConcurrent st) \/
  queueLength st
    + limit (fo st) * _requestsConcurrent (tryFetch_loop fuel now st)
    < queueLimit (qo st).
Proof.
  revert st; induction fuel as [|fuel IH]; intros st; cbn [tryFetch_loop].
  - left; split; reflexivity.
  - destruct (allProcessed st); [left; split; reflexivity|].
    destruct (truthy (_err st)); [left; split; reflexivity|].
    destruct (_requestsConcurrent st >=? requestLimit (qo st));
      [left; split; reflexivity|].
    destruct (projectedBacklog st >=? queueLimit (qo st)) eqn:Hq;
      [left; split; reflexivity|].
    destruct (truthyZ (total (fo st)) && (offset (fo st) >=? cursorBound st));
      [left; split; reflexivity|].
    destruct (truthyZ (maxLimit (fo st))
              && (offset (fo st) >=? numZ (maxLimit (fo st))));
      [left; split; reflexivity|].
    right. unfold projectedBacklog in Hq.
    destruct (IH (issueFetch st)) as [[_ E]|Hlt].
    + rewrite E. simpl. lia.
    + exact Hlt.
Qed.

Definition throttled (L : Z) (st : state) : Prop :=
  limit (fo st) = L /\
  Forall (settlementBounded L) (fetchWrappers st) /\
  0 <= lostFetchSlots st /\
  backlogDemand st <= Z.max 0 (queueLimit (qo st) - 1).

Lemma tryFetch_backlogDemand (now : Z) (st : state) :
  0 <= limit (fo st) -> 0 <= lostFetchSlots st ->
  lostFetchSlots (tryFetch now st) = lostFetchSlots st /\
  backlogDemand (tryFetch now st)
  <= Z.max (backlogDemand st) (queueLimit (qo st) - 1).
Proof.
  intros HL Hlost.
  pose proof (tryFetch_loop_backlog (tryFetch_fuel st) now st) as Hb.
  fold (tryFetch now st) in Hb.
  pose proof (tryFetch_frame now st) as HF. unfold fetchFrame in HF.
  destruct HF as (F1 & _ & _ & _ & _ & F6 & F7 & _ & _ & _ & _ & _ & _ & _
                  & F15 & _ & _ & _ & new & G1 & G2 & _).
  unfold backlogDemand, lostFetchSlots, queueLength in *.
  rewrite F1, F7, F15, G1, G2, length_app in *.
  split; [lia|].
  destruct Hb as [[E1 E2]|Hlt].
  - assert (length new = O) by lia.
    destruct new; [|discriminate]. simpl. lia.
  - nia.
Qed.

Lemma tryProcess_backlogDemand (now : Z) (st : state) :
  lostFetchSlots (tryProcess now st) = lostFetchSlots st /\
  backlogDemand (tryProcess now st) <= backlogDemand st /\
  fetchWrappers (tryProcess now st) = fetchWrappers st.
Proof.
  pose proof (tryProcess_frame now st) as HP. unfold processFrame in HP.
  destruct HP as (F1 & _ & _ & F4 & _ & _ & _ & _ & _ & F10 & F11 & _ & _ & _
                  & taken & G1 & _).
  unfold backlogDemand, lostFetchSlots, queueLength.
  rewrite F1, F4, F10, F11, G1, length_app. repeat split; lia.
Qed.

Lemma throttled_step (L now : Z) (e : event) (st st' : state) :
  0 <= L ->
  throttled L st ->
  pageBounded L [(now, e)] ->
  step now e st = Some st' ->
  throttled L st'.
Proof.
  intros HL (Hl & Hw & Hlost & Hd) Hpage H.
  inversion Hpage as [|? ? Hpg _]; subst. simpl in Hpg.
  pose proof (step_lostSlots now e st st' H) as [Hlost' _].
  pose proof (step_sameConfig now e st st' H) as Hc.
  unfold sameConfig in Hc.
  destruct Hc as (C1 & _ & _ & _ & _ & _ & C7 & _).
  enough (Forall (settlementBounded (limit (fo st))) (fetchWrappers st') /\
          backlogDemand st' <= Z.max 0 (queueLimit (qo st) - 1)) as [A B]
    by (unfold throttled; rewrite C7; repeat split;
        [exact C1 | exact A | lia | exact B]).
  clear Hlost' C1 C7.
  step_inv H.
  - (* FetchResponse *)
    apply lookup_length_delete in Heqo.
    unfold fetch_onResponse. cbv zeta.
    unfold backlogDemand, queueLength in *.
    case_ifs; simpl; rewrite ?length_app; simpl;
      (split; [apply Forall_app; split;
               [assumption | constructor; [simpl; auto | constructor]] | lia]).
  - (* FetchError *)
    apply lookup_length_delete in Heqo.
    unfold backlogDemand, queueLength in *. simpl. split; [assumption | nia].
  - (* FetchDelivered, fulfilled *)
    rewrite tryFetch_onItems_concat.
    assert (Hitems : Z.of_nat (length items) <= limit (fo st)).
    { exact (Forall_lookup_1 _ _ _ _ Hw Heqo). }
    assert (Hw' : Forall (settlementBounded (limit (fo st)))
                    (delete i (fetchWrappers st))).
    { apply Forall_delete. exact Hw. }
    apply lookup_length_delete in Heqo.
    set (s1 := set_queue _ _).
    assert (H1 : backlogDemand s1 <= backlogDemand st).
    { subst s1. unfold backlogDemand, queueLength. simpl.
      rewrite length_app. nia. }
    assert (H1' : lostFetchSlots s1 = lostFetchSlots st).
    { subst s1. unfold lostFetchSlots. simpl. lia. }
    assert (H1'' : fetchWrappers s1 = delete i (fetchWrappers st)) by reflexivity.
    assert (H1c : limit (fo s1) = limit (fo st) /\ qo s1 = qo st)
      by (split; reflexivity).
    clearbody s1. destruct H1c as [H1l H1q].
    destruct (tryProcess_backlogDemand now s1) as (P1 & P2 & P3).
    pose proof (tryProcess_sameConfig now s1) as Pc. unfold sameConfig in Pc.
    destruct Pc as (Pl & _ & _ & _ & _ & _ & Pq & _).
    destruct (tryFetch_backlogDemand now (tryProcess now s1)) as (Q1 & Q2);
      [lia | lia |].
    pose proof (tryFetch_frame now (tryProcess now s1)) as HF.
    unfold fetchFrame in HF.
    destruct HF as (_ & _ & _ & _ & _ & _ & _ & _ & _ & _ & _ & _ & _ & _ & F15 & _).
    split; [rewrite F15, P3, H1''; exact Hw'|].
    rewrite Pq, H1q in Q2. lia.
  - (* FetchDelivered, rejected *)
    assert (Hw' : Forall (settlementBounded (limit (fo st)))
                    (delete i (fetchWrappers st))).
    { apply Forall_delete. exact Hw. }
    apply lookup_length_delete in Heqo.
    unfold backlogDemand, queueLength in *. simpl. split; [assumption | nia].
  - (* ProcessSuccess *)
    rewrite process_onSuccess_spec. cbv zeta.
    unfold backlogDemand, queueLength in *.
    case_ifs; simpl; split; assumption.
  - (* ProcessError *)
    unfold backlogDemand, queueLength in *. simpl. split; assumption.
  - (* ProcessDelivered *)
    unfold tryProcess_onDone. cbv zeta.
    set (s2 := notify _ _).
    assert (H2 : backlogDemand s2 = backlogDemand st /\
                 lostFetchSlots s2 = lostFetchSlots st /\
                 fetchWrappers s2 = fetchWrappers st /\
                 limit (fo s2) = limit (fo st) /\ qo s2 = qo st).
    { subst s2. unfold notify, backlogDemand, lostFetchSlots, queueLength. simpl.
      destruct (deferred st); simpl; repeat split; reflexivity. }
    clearbody s2. destruct H2 as (H2d & H2l & H2w & H2c & H2q).
    destruct (tryProcess_backlogDemand now s2) as (P1 & P2 & P3).
    pose proof (tryProcess_sameConfig now s2) as Pc. unfold sameConfig in Pc.
    destruct Pc as (Pl & _ & _ & _ & _ & _ & Pq & _).
    match goal with
    | |- context [if ?c then _ else _] => destruct c
    end.
    + destruct (tryFetch_backlogDemand now (tryProcess now s2)) as (Q1 & Q2);
        [lia | lia |].
      pose proof (tryFetch_frame now (tryProcess now s2)) as HF.
      unfold fetchFrame in HF.
      destruct HF as (_ & _ & _ & _ & _ & _ & _ & _ & _ & _ & _ & _ & _ & _ & F15 & _).
      split; [rewrite F15, P3, H2w; exact Hw|].
      rewrite Pq, H2q in Q2. lia.
    + split; [rewrite P3, H2w; exact Hw | lia].
  - (* Tick *)
    unfold completeCheck_tick, resolve, reject, clearInterval.
    unfold backlogDemand, queueLength in *.
    case_ifs; simpl; split; assumption.
Qed.

Lemma throttled_run (L : Z) (tr : list (Z * event)) (st st' : state) :
  0 <= L ->
  throttled L st ->
  pageBounded L tr ->
  run tr st = Some st' ->
  throttled L st'.
Proof.
  intros HL. revert st; induction tr as [|[now e] tr IH];
    intros st Hinv Hpage H; simpl in H.
  - injection H as <-. exact Hinv.
  - destruct (step now e st) as [st1|] eqn:Hs; [|discriminate].
    inversion Hpage as [|? ? Hpg Hpage']; subst.
    eapply IH; [|exact Hpage'|exact H].
    eapply throttled_step; [exact HL | exact Hinv | | exact Hs].
    constructor; [exact Hpg | constructor].
Qed.

Lemma throttled_init (now : Z) (fopts : fetchOptions) (qopts : queueOptions) :
  0 <= limit fopts ->
  throttled (limit fopts) (fetchAndProcess now SrcFunc fopts qopts).
Proof.
  intros HL. unfold fetchAndProcess. cbv zeta.
  set (s0 := mkState _ _ _ _ _ _ _ _ _ _ _ _ _ _ _ _).
  destruct (tryFetch_backlogDemand now s0) as (Q1 & Q2);
    [exact HL | unfold lostFetchSlots; simpl; lia |].
  pose proof (tryFetch_frame now s0) as HF. unfold fetchFrame in HF.
  destruct HF as (F1 & _ & _ & _ & _ & F6 & _ & _ & _ & _ & _ & _ & _ & _ & F15 & _).
  unfold throttled. rewrite F6, F15, Q1.
  repeat split; [exact F1 | constructor | unfold lostFetchSlots; simpl; lia |].
  assert (E : backlogDemand s0 = 0)
    by (unfold backlogDemand, queueLength; simpl; lia).
  rewrite E in Q2. simpl in Q2. exact Q2.
Qed.

(** X5.  The backlog stays below [queueLimit].  In fetch mode, with a
    non-negative page size, as long as no response carries more items than
    the [limit] it was asked for: in every state of the run the backlog
    length plus one page for every fetch still under way is at most
    [queueLimit - 1] (zero when [queueLimit] is not positive); in
    particular the backlog itself never holds [queueLimit] items or
    more. *)
Theorem backlog_below_queueLimit
    (now0 : Z) (fopts : fetchOptions) (qopts : queueOptions)
    (tr : list (Z * event)) (st : state) :
  0 <= limit fopts ->
  pageBounded (limit fopts) tr ->
  run tr (fetchAndProcess now0 SrcFunc fopts qopts) = Some st ->
  queueLength st
    + limit fopts * (Z.of_nat (length (fetchCalls st))
                     + Z.of_nat (length (fetchWrappers st)))
    <= Z.max 0 (queueLimit qopts - 1) /\
  queueLength st <= Z.max 0 (queueLimit qopts - 1).
Proof.
  intros HL Hpage Hrun.
  pose proof (throttled_run _ tr _ st HL (throttled_init now0 fopts qopts HL)
                Hpage Hrun) as (Hl & _ & _ & Hd).
  pose proof (run_sameConfig tr _ st Hrun) as Hc.
  pose proof (init_config now0 SrcFunc fopts qopts) as Hi. cbv zeta in Hi.
  unfold sameConfig in Hc. destr.
  unfold backlogDemand in Hd. rewrite Hl in Hd.
  replace (queueLimit qopts) with (queueLimit (qo st)) by congruence.
  split; [exact Hd|]. unfold queueLength in *. nia.
Qed.

Lemma backlog_below_queueLimit_witness :
  queueLength twoFetchState
    + limit default_fetchOptions
      * (Z.of_nat (length (fetchCalls twoFetchState))
         + Z.of_nat (length (fetchWrappers twoFetchState)))
    <= Z.max 0 (1000 - 1) /\
  queueLength twoFetchState <= Z.max 0 (1000 - 1).
Proof.
  apply (backlog_below_queueLimit 1000 default_fetchOptions
           (mkQueueOptions 2 1 1000 15000 0 0) twoFetchTrace).
  - simpl. lia.
  - unfold pageBounded, twoFetchTrace.
    repeat constructor; simpl; lia.
  - vm_compute. reflexivity.
Defined.

(** Without the bound on the pages the throttle gives no such guarantee:
    one response of five items with [limit = 1] and [queueLimit = 3]. *)
Example oversized_page_overshoots :
  exists st,
    run [(1100, FetchResponse O 5 [VNum 1; VNum 2; VNum 3; VNum 4; VNum 5]);
         (1101, FetchDelivered O)]
      (fetchAndProcess 1000 SrcFunc (mkFetchOptions 1 0 None false None 0)
         (mkQueueOptions 1 1 3 15000 0 0)) = Some st /\
    queueLength st = 4.
Proof. eexists. split; [vm_compute; reflexivity | reflexivity]. Qed.

(** ** Order of the backlog *)

(** The process calls that were already pending before the callbacks of a
    turn ran. *)
Definition procBase (e : event) (st : state) : list value :=
  match e with
  | ProcessSuccess i | ProcessError i _ => delete i (procCalls st)
  | _ => procCalls st
  end.

(** The items a turn appends to the backlog. *)
Definition arrivedIn (e : event) (st : state) : list value :=
  match e with
  | FetchDelivered i =>
    match fetchWrappers st !! i with
    | Some (Fulfilled items) => items
    | _ => []
    end
  | _ => []
  end.

(** The items a turn hands to the process capability: the calls that are
    pending afterwards and were not before, in the order of the calls. *)
Definition handedIn (e : event) (st st' : state) : list value :=
  drop (length (procBase e st)) (procCalls st').

Lemma step_fifo (now : Z) (e : event) (st st' : state) :
  step now e st = Some st' ->
  procCalls st' = procBase e st ++ handedIn e st st' /\
  handedIn e st st' ++ _queue st' = _queue st ++ arrivedIn e st.
Proof.
  intros H.
  enough (exists taken, procCalls st' = procBase e st ++ taken /\
                        taken ++ _queue st' = _queue st ++ arrivedIn e st)
    as (taken & E1 & E2).
  { unfold handedIn. rewrite E1, drop_app_length. split; [reflexivity | exact E2]. }
  unfold arrivedIn, procBase.
  step_inv H; rewrite ?Heqo.
  1-2, 4-6, 8: exists []; handlers; case_ifs; simpl;
    rewrite ?app_nil_r; split; reflexivity.
  - rewrite tryFetch_onItems_concat. frames. destr. simpl in *.
    match goal with
    | H : procCalls _ = procCalls st ++ ?x |- _ => exists x
    end. split; congruence.
  - unfold tryProcess_onDone, notify. cbv zeta. simpl.
    destruct (deferred st); case_ifs; frames; destr; simpl in *;
      rewrite app_nil_r;
      match goal with
      | H : procCalls _ = procCalls st ++ ?x |- _ => exists x
      end; split; congruence.
Qed.

(** The items handed to the process capability during a run, and the items
    appended to the backlog during a run, in order. *)
Fixpoint handedLog (tr : list (Z * event)) (st : state) : list value :=
  match tr with
  | [] => []
  | (now, e) :: tr' =>
    match step now e st with
    | Some st' => handedIn e st st' ++ handedLog tr' st'
    | None => []
    end
  end.

Fixpoint arrivedLog (tr : list (Z * event)) (st : state) : list value :=
  match tr with
  | [] => []
  | (now, e) :: tr' =>
    match step now e st with
    | Some st' => arrivedIn e st ++ arrivedLog tr' st'
    | None => []
    end
  end.

Lemma run_fifo (tr : list (Z * event)) (st st' : state) :
  run tr st = Some st' ->
  handedLog tr st ++ _queue st' = _queue st ++ arrivedLog tr st.
Proof.
  revert st; induction tr as [|[now e] tr IH]; intros st H; simpl in H.
  - injection H as <-. simpl. rewrite app_nil_r. reflexivity.
  - cbn [handedLog arrivedLog].
    destruct (step now e st) as [st1|] eqn:Hs; [|discriminate].
    destruct (step_fifo now e st st1 Hs) as [_ E].
    rewrite <- app_assoc, (IH st1 H), !app_assoc, E. reflexivity.
Qed.

(** The array passed as the source, if any. *)
Definition suppliedItems (src : source) : list value :=
  match src with
  | SrcArray items => items
  | SrcFunc => []
  end.

(** X6.  The backlog is a strict first-in first-out queue.  At any point
    of a run, the items handed to the process capability so far, in the
    order in which they were handed over, followed by the backlog, are the
    supplied array (in array mode) followed by the items of the delivered
    pages, in the order in which the pages were delivered: no item is lost,
    duplicated or overtaken on its way through the backlog. *)
Theorem backlog_is_fifo
    (now0 : Z) (src : source) (fopts : fetchOptions) (qopts : queueOptions)
    (tr : list (Z * event)) (st : state) :
  let s0 := fetchAndProcess now0 src fopts qopts in
  run tr s0 = Some st ->
  (procCalls s0 ++ handedLog tr s0) ++ _queue st
  = suppliedItems src ++ arrivedLog tr s0.
Proof.
  intros s0 Hrun.
  rewrite <- app_assoc, (run_fifo tr s0 st Hrun), app_assoc. f_equal.
  subst s0. unfold fetchAndProcess. cbv zeta.
  destruct src as [[|item items]|]; simpl suppliedItems.
  - reflexivity.
  - frames. destr. simpl in *. congruence.
  - frames. destr. simpl in *.
    repeat match goal with
           | H : procCalls _ = _ |- _ => rewrite H
           | H : _queue _ = _ |- _ => rewrite H
           end. reflexivity.
Qed.

Lemma backlog_is_fifo_witness :
  (procCalls twoFetchRun ++ handedLog twoFetchTrace twoFetchRun)
    ++ _queue twoFetchState
  = suppliedItems SrcFunc ++ arrivedLog twoFetchTrace twoFetchRun.
Proof.
  apply (backlog_is_fifo 1000 SrcFunc default_fetchOptions
           (mkQueueOptions 2 1 1000 15000 0 0) twoFetchTrace twoFetchState).
  vm_compute. reflexivity.
Defined.

(** In that run items 1 and 2 were handed over, in this order, and item 3
    waits in the backlog. *)
Example twoFetch_handed :
  handedLog twoFetchTrace twoFetchRun = [VNum 1; VNum 2] /\
  _queue twoFetchState = [VNum 3] /\
  arrivedLog twoFetchTrace twoFetchRun = [VNum 1; VNum 2; VNum 3].
Proof. vm_compute. repeat split; reflexivity. Qed.

(** ** The cursor *)

(** [_fetchOptions.paged ? 1 : _fetchOptions.limit], the increment of the
    cursor. *)
Definition strideOf (f : fetchOptions) : Z :=
  if paged f then 1 else limit f.

(** [k] fetch calls with page size [L] at the cursors [o], [o + s],
    [o + 2 s], ... *)
Definition cursors (L o s : Z) (k : nat) : list (Z * Z) :=
  map (fun j => (L, o + Z.of_nat j * s)) (seq 0 k).

Lemma cursors_S (L o s : Z) (k : nat) :
  cursors L o s (S k) = (L, o) :: cursors L (o + s) s k.
Proof.
  unfold cursors. simpl. f_equal; [f_equal; lia|].
  rewrite <- seq_shift, map_map. apply map_ext. intros j. f_equal. lia.
Qed.



(** The fetch calls that were already pending before the callbacks of a
    turn ran, and the calls the turn issued. *)
Definition fetchBase (e : event) (st : state) : list (Z * Z) :=
  match e with
  | FetchResponse i _ _ | FetchError i _ => delete i (fetchCalls st)
  | _ => fetchCalls st
  end.

Definition issuedIn (e : event) (st st' : state) : list (Z * Z) :=
  drop (length (fetchBase e st)) (fetchCalls st').


(** The fetch calls issued during a run, in order. *)
Fixpoint issuedLog (tr : list (Z * event)) (st : state) : list (Z * Z) :=
  match tr with
  | [] => []
  | (now, e) :: tr' =>
    match step now e st with
    | Some st' => issuedIn e st st' ++ issuedLog tr' st'
    | None => []
    end
  end.






(** With [limit = 2] and a source of five items the cursors are 0, 2
    and 4. *)
Example cursors_of_small_run :
  let s0 := fetchAndProcess 1000 SrcFunc (mkFetchOptions 2 0 None false None 0)
              default_queueOptions in
  let tr := [ (1100, FetchResponse O 5 [VNum 0; VNum 1]);
              (1101, FetchDelivered O);
              (1200, FetchResponse O 5 [VNum 2; VNum 3]);
              (1201, FetchDelivered O) ] in
  fetchCalls s0 ++ issuedLog tr s0 = [(2, 0); (2, 2); (2, 4)].
Proof. vm_compute. reflexivity. Qed.

(** ** The cap on the cursor *)

Definition belowCap (f : fetchOptions) (c : Z * Z) : Prop :=
  truthyZ (maxLimit f) = true -> snd c < numZ (maxLimit f).

Lemma tryFetch_loop_capped (fuel : nat) (now : Z) (st : state) :
  exists new : list (Z * Z),
    fetchCalls (tryFetch_loop fuel now st) = fetchCalls st ++ new /\
    Forall (belowCap (fo st)) new.
Proof.
  revert st; induction fuel as [|fuel IH]; intros st; cbn [tryFetch_loop].
  - exists []. rewrite app_nil_r. split; [reflexivity | constructor].
  - destruct (allProcessed st);
      [exists []; simpl; rewrite app_nil_r; split; [reflexivity | constructor]|].
    destruct (truthy (_err st));
      [exists []; rewrite app_nil_r; split; [reflexivity | constructor]|].
    destruct (_requestsConcurrent st >=? requestLimit (qo st));
      [exists []; rewrite app_nil_r; split; [reflexivity | constructor]|].
    destruct (projectedBacklog st >=? queueLimit (qo st));
      [exists []; rewrite app_nil_r; split; [reflexivity | constructor]|].
    destruct (truthyZ (total (fo st)) && (offset (fo st) >=? cursorBound st));
      [exists []; rewrite app_nil_r; split; [reflexivity | constructor]|].
    destruct (truthyZ (maxLimit (fo st))
              && (offset (fo st) >=? numZ (maxLimit (fo st)))) eqn:Hm;
      [exists []; rewrite app_nil_r; split; [reflexivity | constructor]|].
    destruct (IH (issueFetch st)) as (new & E & Hall).
    exists ((limit (fo st), offset (fo st)) :: new). split.
    + rewrite E. simpl. rewrite <- app_assoc. reflexivity.
    + constructor; [|exact Hall].
      unfold belowCap. simpl. intros Ht. rewrite Ht in Hm. simpl in Hm. lia.
Qed.

Lemma step_capped (now : Z) (e : event) (st st' : state) :
  step now e st = Some st' ->
  Forall (belowCap (fo st)) (issuedIn e st st').
Proof.
  intros H.
  enough (exists new, fetchCalls st' = fetchBase e st ++ new /\
                      Forall (belowCap (fo st)) new) as (new & E & Hall).
  { unfold issuedIn. rewrite E, drop_app_length. exact Hall. }
  unfold fetchBase.
  step_inv H.
  1-2, 4-6, 8: exists []; handlers; case_ifs; simpl;
    rewrite ?app_nil_r; split; (reflexivity || constructor).
  - rewrite tryFetch_onItems_concat.
    match goal with
    | |- context [tryFetch ?now (tryProcess ?now ?s1)] =>
      destruct (tryFetch_loop_capped (tryFetch_fuel (tryProcess now s1)) now
                  (tryProcess now s1)) as (new & E & Hall);
        fold (tryFetch now (tryProcess now s1)) in E;
        pose proof (tryProcess_frame now s1) as HP
    end.
    unfold processFrame in HP.
    destruct HP as (F1 & _ & _ & _ & _ & _ & _ & _ & _ & F10 & _).
    exists new. rewrite E, F10. rewrite F1 in Hall. simpl in *.
    split; [reflexivity | exact Hall].
  - unfold tryProcess_onDone. cbv zeta.
    set (s2 := notify _ _).
    assert (H2 : fo s2 = fo st /\ fetchCalls s2 = fetchCalls st).
    { subst s2. unfold notify. simpl. destruct (deferred st); simpl; auto. }
    clearbody s2. destruct H2 as [H2f H2c].
    pose proof (tryProcess_frame now s2) as HP. unfold processFrame in HP.
    destruct HP as (F1 & _ & _ & _ & _ & _ & _ & _ & _ & F10 & _).
    match goal with
    | |- context [if ?c then _ else _] => destruct c
    end.
    + destruct (tryFetch_loop_capped (tryFetch_fuel (tryProcess now s2)) now
                  (tryProcess now s2)) as (new & E & Hall).
      fold (tryFetch now (tryProcess now s2)) in E.
      exists new. rewrite E, F10, H2c. rewrite F1, H2f in Hall.
      split; [reflexivity | exact Hall].
    + exists []. rewrite F10, H2c, app_nil_r. split; [reflexivity | constructor].
Qed.

Lemma run_capped (m : option Z) (tr : list (Z * event)) (st st' : state) :
  maxLimit (fo st) = m ->
  run tr st = Some st' ->
  Forall (fun c => truthyZ m = true -> snd c < numZ m) (issuedLog tr st).
Proof.
  revert st; induction tr as [|[now e] tr IH]; intros st Hm H; simpl in H.
  - constructor.
  - cbn [issuedLog].
    destruct (step now e st) as [st1|] eqn:Hs; [|discriminate].
    pose proof (step_sameConfig now e st st1 Hs) as Hc.
    unfold sameConfig in Hc. destruct Hc as (_ & C2 & _).
    apply Forall_app. split.
    + pose proof (step_capped now e st st1 Hs) as Hall.
      unfold belowCap in Hall. rewrite Hm in Hall. exact Hall.
    + apply (IH st1); [congruence | exact H].
Qed.

(** X8.  [maxLimit] caps the cursor of every fetch.  When [maxLimit] is
    set, every fetch call issued during a run, by [fetchAndProcess] itself
    or by a callback, asks for a cursor strictly below [maxLimit]. *)
Theorem no_fetch_at_or_beyond_maxLimit
    (now0 : Z) (src : source) (fopts : fetchOptions) (qopts : queueOptions)
    (tr : list (Z * event)) (st : state) :
  let s0 := fetchAndProcess now0 src fopts qopts in
  truthyZ (maxLimit fopts) = true ->
  run tr s0 = Some st ->
  Forall (fun c => snd c < numZ (maxLimit fopts))
    (fetchCalls s0 ++ issuedLog tr s0).
Proof.
  intros s0 Ht Hrun.
  pose proof (init_config now0 src fopts qopts) as Hi. cbv zeta in Hi.
  destruct Hi as (_ & Hm & _).
  apply Forall_app. split.
  - subst s0. unfold fetchAndProcess. cbv zeta.
    destruct src as [[|item items]|].
    + constructor.
    + match goal with
      | |- context [tryProcess ?now ?s] =>
        pose proof (tryProcess_frame now s) as HP
      end.
      unfold processFrame in HP.
      destruct HP as (_ & _ & _ & _ & _ & _ & _ & _ & _ & F10 & _).
      rewrite F10. constructor.
    + match goal with
      | |- context [tryFetch ?now ?s] =>
        destruct (tryFetch_loop_capped (tryFetch_fuel s) now s) as (new & E & Hall);
          fold (tryFetch now s) in E
      end.
      rewrite E. simpl. eapply Forall_impl; [exact Hall|].
      unfold belowCap. simpl. auto.
  - pose proof (run_capped (maxLimit fopts) tr s0 st Hm Hrun) as Hall.
    eapply Forall_impl; [exact Hall|]. simpl. auto.
Qed.

Lemma no_fetch_at_or_beyond_maxLimit_witness :
  let s0 := fetchAndProcess 1000 SrcFunc
              (mkFetchOptions 2 0 (Some 3) false None 0)
              (mkQueueOptions 3 1 1000 15000 0 0) in
  Forall (fun c => snd c < 3) (fetchCalls s0 ++ issuedLog [] s0).
Proof.
  apply (no_fetch_at_or_beyond_maxLimit 1000 SrcFunc
           (mkFetchOptions 2 0 (Some 3) false None 0)
           (mkQueueOptions 3 1 1000 15000 0 0) []
           (fetchAndProcess 1000 SrcFunc
              (mkFetchOptions 2 0 (Some 3) false None 0)
              (mkQueueOptions 3 1 1000 15000 0 0)));
    reflexivity.
Defined.

(** With [limit = 2], [maxLimit = 3] and three request slots, only the
    cursors 0 and 2 are asked for. *)
Example maxLimit_stops_third_fetch :
  fetchCalls (fetchAndProcess 1000 SrcFunc
                (mkFetchOptions 2 0 (Some 3) false None 0)
                (mkQueueOptions 3 1 1000 15000 0 0))
  = [(2, 0); (2, 2)].
Proof. vm_compute. reflexivity. Qed.

(** ** An empty source *)

(** X9.  A source that reports a total of zero while no total is known is
    fatal.  When such a response arrives for a pending fetch (and
    [maxLimit] is unset or not negative), its items are dropped: once the
    rejection of the wrapper is delivered and the completion check runs,
    the pending promise is rejected with [{ error: "Source is empty." }],
    the backlog being what it was. *)
Theorem empty_source_is_fatal
    (now0 : Z) (fopts : fetchOptions) (qopts : queueOptions)
    (tr : list (Z * event)) (st : state)
    (i : nat) (items : list value) (n1 n2 n3 : Z) :
  run tr (fetchAndProcess now0 SrcFunc fopts qopts) = Some st ->
  deferred st = Pending ->
  truthyZ (total (fo st)) = false ->
  truthyZ (maxLimit (fo st)) = false \/ 0 <= numZ (maxLimit (fo st)) ->
  is_Some (fetchCalls st !! i) ->
  exists st',
    run [ (n1, FetchResponse i 0 items);
          (n2, FetchDelivered (length (fetchWrappers st)));
          (n3, Tick) ] st = Some st' /\
    deferred st' =
    Rejected (RejError sourceEmpty
                {| fetched := total (fo st);
                   processedCount := processed (qo st);
                   time := seconds (n3 - now0) |}) /\
    _queue st' = _queue st.
Proof.
  intros Hrun Hp Ht Hm [c Hc].
  pose proof (armedIffPending_run tr _ st
                (armedIffPending_init now0 SrcFunc fopts qopts) Hrun) as [_ Ha].
  specialize (Ha Hp).
  pose proof (run_sameConfig tr _ st Hrun) as Hcfg.
  pose proof (init_config now0 SrcFunc fopts qopts) as Hi. cbv zeta in Hi.
  unfold sameConfig in Hcfg. destr.
  assert (Hs : _timeStart st = now0) by congruence.
  cbn [run step]. rewrite Hc.
  unfold fetch_onResponse. cbv zeta. simpl.
  rewrite Ht. simpl.
  replace (truthyZ (maxLimit (fo st)) && (0 >? numZ (maxLimit (fo st))))
    with false
    by (destruct Hm as [-> | Hm]; [reflexivity|];
        destruct (truthyZ (maxLimit (fo st))); simpl; lia).
  simpl. rewrite Ht. simpl.
  rewrite list_lookup_middle by reflexivity.
  simpl. rewrite Ha.
  unfold completeCheck_tick, reject, clearInterval. simpl. rewrite Hp, Hs.
  eexists. split; [reflexivity|]. split; reflexivity.
Qed.

Lemma empty_source_is_fatal_witness :
  let s0 := fetchAndProcess 1000 SrcFunc default_fetchOptions
              default_queueOptions in
  exists st',
    run [ (1100, FetchResponse O 0 []);
          (1101, FetchDelivered (length (fetchWrappers s0)));
          (2000, Tick) ] s0 = Some st' /\
    deferred st' =
    Rejected (RejError sourceEmpty
                {| fetched := total (fo s0);
                   processedCount := processed (qo s0);
                   time := seconds (2000 - 1000) |}) /\
    _queue st' = _queue s0.
Proof.
  apply (empty_source_is_fatal 1000 default_fetchOptions default_queueOptions
           [] (fetchAndProcess 1000 SrcFunc default_fetchOptions
                 default_queueOptions) O [] 1100 1101 2000);
    try (vm_compute; reflexivity).
  - left. vm_compute. reflexivity.
  - eexists. vm_compute. reflexivity.
Defined.

(** * The example source ([example.js]) *)

(** ** [callAPIforData] *)

(** [{ _id: id }] *)
Definition apiItem (id : Z) : value := VObj [("_id"%string, VNum id)].

(** The [for] loop of [callAPIforData], entered with the counter at [i] and
    [results] collected so far; [total] is [config.total].  The counter
    rises by one per round and the loop ends at [total - offset] at the
    latest, which bounds the number of rounds. *)
Fixpoint callAPIforData_loop (fuel : nat) (total limit offset i : Z)
    (results : list value) : list value :=
  match fuel with
  | O => results
  | S fuel' =>
    if i <? total - offset then
      if i >=? limit then results
      else callAPIforData_loop fuel' total limit offset (i + 1)
             (results ++ [apiItem (offset + i)])
    else results
  end.

(** What [callAPIforData(limit, offset, callback)] passes to its callback:
    [{ total: config.total, items: results }]. *)
Definition callAPIforData (total limit offset : Z) : Z * list value :=
  (total,
   callAPIforData_loop (S (Z.to_nat (total - offset))) total limit offset 0 []).

(** The ids [first], [first + 1], ..., [n] of them. *)
Definition apiItems (first : Z) (n : nat) : list value :=
  map (fun j => apiItem (first + Z.of_nat j)) (seq 0 n).

Lemma apiItems_S_r (first : Z) (n : nat) :
  apiItems first (S n) = apiItems first n ++ [apiItem (first + Z.of_nat n)].
Proof.
  unfold apiItems. rewrite seq_S, map_app. reflexivity.
Qed.

Lemma apiItems_app (first : Z) (n m : nat) :
  apiItems first n ++ apiItems (first + Z.of_nat n) m = apiItems first (n + m).
Proof.
  induction m as [|m IH].
  - simpl. rewrite app_nil_r, Nat.add_0_r. reflexivity.
  - rewrite Nat.add_succ_r, !apiItems_S_r, app_assoc, IH.
    do 3 f_equal. lia.
Qed.

Lemma callAPIforData_loop_spec (fuel : nat) (total limit offset : Z) (n : nat) :
  (Z.to_nat (total - offset - Z.of_nat n) < fuel)%nat ->
  callAPIforData_loop fuel total limit offset (Z.of_nat n) (apiItems offset n)
  = apiItems offset
      (Nat.max n (Z.to_nat (Z.min limit (total - offset)))).
Proof.
  revert n; induction fuel as [|fuel IH]; intros n Hfuel; [lia|].
  cbn [callAPIforData_loop].
  destruct (Z.of_nat n <? total - offset) eqn:H1.
  - destruct (Z.of_nat n >=? limit) eqn:H2.
    + f_equal. lia.
    + replace (Z.of_nat n + 1) with (Z.of_nat (S n)) by lia.
      rewrite <- apiItems_S_r, IH by lia. f_equal. lia.
  - f_equal. lia.
Qed.

(** The page [callAPIforData] returns: the ids from [offset] on, as many as
    [limit] allows and the source has left. *)
Definition pageLength (total limit offset : Z) : nat :=
  Z.to_nat (Z.min limit (total - offset)).

Lemma callAPIforData_eq (total limit offset : Z) :
  callAPIforData total limit offset
  = (total, apiItems offset (pageLength total limit offset)).
Proof.
  unfold callAPIforData. f_equal.
  pose proof (callAPIforData_loop_spec (S (Z.to_nat (total - offset)))
                total limit offset O) as H.
  simpl Z.of_nat in H. apply H. simpl. lia.
Qed.

(** X10.  The example source returns exactly the requested page: for every
    total, limit and offset (negative or excessive ones included), the
    response of [callAPIforData] reports [config.total] and carries the
    items with ids [offset], [offset + 1], ..., as many as
    [min(limit, total - offset)], none when that is not positive; so a page
    never has more than [limit] items and never reaches past the total. *)
Theorem callAPIforData_page (total limit offset : Z) :
  callAPIforData total limit offset
  = (total, apiItems offset (pageLength total limit offset)) /\
  (0 <= limit ->
   Z.of_nat (length (snd (callAPIforData total limit offset))) <= limit) /\
  (offset <= total ->
   offset + Z.of_nat (length (snd (callAPIforData total limit offset)))
   <= total).
Proof.
  rewrite callAPIforData_eq. simpl. unfold apiItems, pageLength.
  rewrite length_map, length_seq.
  split; [reflexivity|]. split; intros; lia.
Qed.

Lemma callAPIforData_page_witness :
  callAPIforData 5 2 4 = (5, apiItems 4 (pageLength 5 2 4)) /\
  (0 <= 2 -> Z.of_nat (length (snd (callAPIforData 5 2 4))) <= 2) /\
  (4 <= 5 -> 4 + Z.of_nat (length (snd (callAPIforData 5 2 4))) <= 5).
Proof. exact (callAPIforData_page 5 2 4). Defined.

(** The pages at the first [n] cursors [0], [limit], [2 limit], ... in
    order. *)
Definition firstPages (total limit : Z) (n : nat) : list value :=
  concat (map (fun j => snd (callAPIforData total limit (Z.of_nat j * limit)))
              (seq 0 n)).

(** X11.  Paging through the example source visits every item exactly once
    and in order: for a positive page size, the pages at the cursors [0],
    [limit], [2 limit], ... laid end to end are the items with ids [0],
    [1], [2], ... up to the cursor reached or the total, whichever is
    smaller; once the cursor has reached the total they are all the items
    of the source, and further pages add nothing. *)
Theorem paging_covers_source (total limit : Z) (n : nat) :
  0 < limit -> 0 <= total ->
  firstPages total limit n
  = apiItems 0 (Z.to_nat (Z.min (Z.of_nat n * limit) total)) /\
  (total <= Z.of_nat n * limit ->
   firstPages total limit n = apiItems 0 (Z.to_nat total)).
Proof.
  intros HL HT.
  assert (E : firstPages total limit n
              = apiItems 0 (Z.to_nat (Z.min (Z.of_nat n * limit) total))).
  { unfold firstPages. induction n as [|n IH].
    - replace (Z.to_nat (Z.min (Z.of_nat 0 * limit) total)) with O by lia.
      reflexivity.
    - rewrite seq_S, map_app, concat_app, IH.
      change (seq (0 + n) 1) with [n]. cbn [map concat Nat.add].
      rewrite app_nil_r.
      rewrite callAPIforData_eq.
      cbn [snd]. unfold pageLength.
      destruct (Z_le_gt_dec (Z.of_nat n * limit) total) as [Hle|Hgt].
      + remember (Z.to_nat (Z.min (Z.of_nat n * limit) total)) as a eqn:Ea.
        remember (Z.to_nat (Z.min limit (total - Z.of_nat n * limit))) as m eqn:Em.
        assert (Hfirst : Z.of_nat n * limit = 0 + Z.of_nat a) by lia.
        rewrite Hfirst, apiItems_app. f_equal. lia.
      + replace (Z.to_nat (Z.min limit (total - Z.of_nat n * limit))) with O by lia.
        simpl. rewrite app_nil_r. f_equal. lia. }
  split; [exact E|].
  intros Hall. rewrite E. f_equal. lia.
Qed.

Lemma paging_covers_source_witness :
  firstPages 5 2 3 = apiItems 0 (Z.to_nat (Z.min (Z.of_nat 3 * 2) 5)) /\
  (5 <= Z.of_nat 3 * 2 -> firstPages 5 2 3 = apiItems 0 (Z.to_nat 5)).
Proof. apply (paging_covers_source 5 2 3); lia. Defined.

(** Five items in pages of two: [[0; 1]], [[2; 3]], [[4]], then nothing. *)
Example pages_of_five :
  snd (callAPIforData 5 2 0) = [apiItem 0; apiItem 1] /\
  snd (callAPIforData 5 2 2) = [apiItem 2; apiItem 3] /\
  snd (callAPIforData 5 2 4) = [apiItem 4] /\
  snd (callAPIforData 5 2 6) = [].
Proof. vm_compute. repeat split; reflexivity. Qed.

(** * The engine on the example source *)

(** ** What one call of [tryFetch] achieves *)

Lemma tryFetch_loop_spec (fuel : nat) (now : Z) (st : state) :
  (Z.to_nat (requestLimit (qo st) - _requestsConcurrent st) < fuel)%nat ->
  exists k : nat,
    fetchCalls (tryFetch_loop fuel now st)
    = fetchCalls st
      ++ cursors (limit (fo st)) (offset (fo st)) (strideOf (fo st)) k /\
    offset (fo (tryFetch_loop fuel now st))
    = offset (fo st) + Z.of_nat k * strideOf (fo st) /\
    _requestsConcurrent (tryFetch_loop fuel now st)
    = _requestsConcurrent st + Z.of_nat k /\
    (forall j : nat, (j < k)%nat -> truthyZ (total (fo st)) = true ->
       offset (fo st) + Z.of_nat j * strideOf (fo st) < cursorBound st) /\
    (allProcessed st = true \/ truthy (_err st) = true \/
     requestLimit (qo st) <= _requestsConcurrent (tryFetch_loop fuel now st) \/
     queueLimit (qo st)
     <= queueLength st
        + limit (fo st) * (_requestsConcurrent (tryFetch_loop fuel now st) + 1) \/
     (truthyZ (total (fo st)) = true /\
      cursorBound st <= offset (fo (tryFetch_loop fuel now st))) \/
     (truthyZ (maxLimit (fo st)) = true /\
      numZ (maxLimit (fo st)) <= offset (fo (tryFetch_loop fuel now st)))).
Proof.
  revert st; induction fuel as [|fuel IH]; intros st Hfuel; [lia|].
  cbn [tryFetch_loop].
  destruct (allProcessed st) eqn:Ha.
  { exists O. simpl. rewrite app_nil_r.
    repeat split; try lia; try (intros j Hj; lia); auto. }
  destruct (truthy (_err st)) eqn:He.
  { exists O. simpl. rewrite app_nil_r.
    repeat split; try lia; try (intros j Hj; lia); auto. }
  destruct (_requestsConcurrent st >=? requestLimit (qo st)) eqn:Hrc.
  { exists O. simpl. rewrite app_nil_r.
    repeat split; try lia; try (intros j Hj; lia);
    try (right; right; left; lia). }
  destruct (projectedBacklog st >=? queueLimit (qo st)) eqn:Hq.
  { exists O. simpl. rewrite app_nil_r.
    repeat split; try lia; try (intros j Hj; lia);
    try (right; right; right; left; unfold projectedBacklog in Hq; lia). }
  destruct (truthyZ (total (fo st)) && (offset (fo st) >=? cursorBound st)) eqn:Ht.
  { exists O. simpl. rewrite app_nil_r.
    repeat split; try lia; try (intros j Hj; lia);
    try (apply andb_true_iff in Ht; right; right; right; right; left;
         split; [tauto | lia]). }
  destruct (truthyZ (maxLimit (fo st))
            && (offset (fo st) >=? numZ (maxLimit (fo st)))) eqn:Hm.
  { exists O. simpl. rewrite app_nil_r.
    repeat split; try lia; try (intros j Hj; lia);
    try (apply andb_true_iff in Hm; right; right; right; right; right;
         split; [tauto | lia]). }
  destruct (IH (issueFetch st)) as (k & E1 & E2 & E3 & E4 & E5); [simpl; lia|].
  assert (Ha' : allProcessed (issueFetch st) = false) by exact Ha.
  rewrite Ha' in E5.
  change (truthy (_err (issueFetch st))) with (truthy (_err st)) in E5.
  rewrite He in E5.
  exists (S k). rewrite E2, E3 in E5. rewrite E1, E2, E3, cursors_S.
  unfold strideOf, cursorBound, queueLength in *. simpl in *.
  rewrite <- app_assoc. simpl.
  split; [reflexivity|]. split; [lia|]. split; [lia|]. split.
  - intros [|j] Hj Htot.
    + apply andb_false_iff in Ht. destruct Ht as [Ht|Ht]; [congruence | lia].
    + specialize (E4 j ltac:(lia) Htot). lia.
  - destruct E5 as [E5|[E5|E5]]; try discriminate. right; right. exact E5.
Qed.

Lemma tryFetch_spec (now : Z) (st : state) :
  exists k : nat,
    fetchCalls (tryFetch now st)
    = fetchCalls st
      ++ cursors (limit (fo st)) (offset (fo st)) (strideOf (fo st)) k /\
    offset (fo (tryFetch now st))
    = offset (fo st) + Z.of_nat k * strideOf (fo st) /\
    _requestsConcurrent (tryFetch now st)
    = _requestsConcurrent st + Z.of_nat k /\
    (forall j : nat, (j < k)%nat -> truthyZ (total (fo st)) = true ->
       offset (fo st) + Z.of_nat j * strideOf (fo st) < cursorBound st) /\
    (allProcessed st = true \/ truthy (_err st) = true \/
     requestLimit (qo st) <= _requestsConcurrent (tryFetch now st) \/
     queueLimit (qo st)
     <= queueLength st
        + limit (fo st) * (_requestsConcurrent (tryFetch now st) + 1) \/
     (truthyZ (total (fo st)) = true /\
      cursorBound st <= offset (fo (tryFetch now st))) \/
     (truthyZ (maxLimit (fo st)) = true /\
      numZ (maxLimit (fo st)) <= offset (fo (tryFetch now st)))).
Proof. apply tryFetch_loop_spec. unfold tryFetch_fuel. lia. Qed.

(** ** Sums over the pending fetches *)

Definition sumZ (l : list Z) : Z := fold_right Z.add 0 l.




(** The number of items the example source returns for a call. *)
Definition pageOf (T : Z) (c : Z * Z) : Z :=
  Z.of_nat (pageLength T (fst c) (snd c)).

(** The number of items a settled wrapper will deliver. *)
Definition settledSize (w : settlement) : Z :=
  match w with
  | Fulfilled items => Z.of_nat (length items)
  | Failure _ => 0
  end.

(** Items on their way to the backlog. *)
Definition underway (T : Z) (st : state) : Z :=
  sumZ (map (pageOf T) (fetchCalls st))
  + sumZ (map settledSize (fetchWrappers st)).



(** ** Runs against the example source *)

(** The turns of a run in which the capabilities are those of [example.js]:
    [fetch] resolves with what [callAPIforData] passes to its callback and
    [process] always resolves. *)
Inductive exampleTurn : Type :=
| Fetched (i : nat)          (* the i-th pending fetch call resolves *)
| PageDelivered (i : nat)    (* callbacks of the i-th settled wrapper *)
| Processed (i : nat)        (* the i-th pending process call resolves *)
| ProcessedDelivered         (* callback of a resolved process wrapper *)
| Checked.                   (* the interval fires *)

(** The event a turn stands for in state [st], for a source of [T] items. *)
Definition exampleEvent (T : Z) (m : exampleTurn) (st : state) : option event :=
  match m with
  | Fetched i =>
    match fetchCalls st !! i with
    | Some (lim, off) =>
      Some (FetchResponse i (fst (callAPIforData T lim off))
              (snd (callAPIforData T lim off)))
    | None => None
    end
  | PageDelivered i => Some (FetchDelivered i)
  | Processed i => Some (ProcessSuccess i)
  | ProcessedDelivered => Some ProcessDelivered
  | Checked => Some Tick
  end.

Definition exampleStep (T now : Z) (m : exampleTurn) (st : state) : option state :=
  match exampleEvent T m st with
  | Some e => step now e st
  | None => None
  end.

Fixpoint exampleRun (T : Z) (tr : list (Z * exampleTurn)) (st : state)
    : option state :=
  match tr with
  | [] => Some st
  | (now, m) :: tr' =>
    match exampleStep T now m st with
    | Some st' => exampleRun T tr' st'
    | None => None
    end
  end.


(** What holds throughout a run of the engine, started with the default
    cursor, no forced total and no [maxLimit], against the example source
    of [T > 0] items with page size [L]. *)
Definition exampleInv (T L : Z) (st : state) : Prop :=
  (_fetchFunc st = SrcFunc /\ paged (fo st) = false /\ limit (fo st) = L /\
   truthyZ (maxLimit (fo st)) = false /\
   1 <= requestLimit (qo st) /\ 1 <= processingLimit (qo st) /\
   0 < L /\ L < queueLimit (qo st) /\ 0 < T) /\
  truthy (_err st) = false /\
  lostFetchSlots st = 0 /\ lostProcessSlots st = 0 /\
  Forall (fun c => fst c = L) (fetchCalls st) /\
  Forall (fun w => exists items, w = Fulfilled items) (fetchWrappers st) /\
  (total (fo st) = Some T \/
   (total (fo st) = None /\ fetchCalls st <> [] /\ fetchWrappers st = [] /\
    _queue st = [] /\ procCalls st = [] /\ procWrappers st = O /\
    processed (qo st) = 0)) /\
  0 <= processed (qo st) /\
  processed (qo st) + Z.of_nat (length (procCalls st)) + queueLength st
    + underway T st = Z.min (offset (fo st)) T /\
  (processed (qo st) = T \/ _queue st = [] \/
   processingLimit (qo st) <= _processingConcurrent st) /\
  (processed (qo st) = T \/
   requestLimit (qo st) <= _requestsConcurrent st \/
   queueLimit (qo st) <= queueLength st + L * (_requestsConcurrent st + 1) \/
   (total (fo st) = Some T /\ T <= offset (fo st))) /\
  (truthyZ (_timeEnd st) = true <-> processed (qo st) = T) /\
  match deferred st with
  | Pending => completeCheck st = true
  | Resolved _ => doneWith T (deferred st) /\ processed (qo st) = T
  | Rejected r => r = RejTimeout
  end.



Ltac open_inv H :=
  destruct H as ((Hsrc & Hpg & Hlim & Hmax & Hrl & Hpl & HL & Hql & HT)
                 & Herr & Hlf & Hlp & Hcalls & Hwr & Htot & Hp0 & Hacc
                 & Hpsat & Hfsat & Hte & Hdef).


Definition exampleCore (T L : Z) (st : state) : Prop :=
  (_fetchFunc st = SrcFunc /\ paged (fo st) = false /\ limit (fo st) = L /\
   truthyZ (maxLimit (fo st)) = false /\
   1 <= requestLimit (qo st) /\ 1 <= processingLimit (qo st) /\
   0 < L /\ L < queueLimit (qo st) /\ 0 < T) /\
  truthy (_err st) = false /\
  lostFetchSlots st = 0 /\ lostProcessSlots st = 0 /\
  Forall (fun c => fst c = L) (fetchCalls st) /\
  Forall (fun w => exists items, w = Fulfilled items) (fetchWrappers st) /\
  total (fo st) = Some T /\
  0 <= processed (qo st) /\
  processed (qo st) + Z.of_nat (length (procCalls st)) + queueLength st
    + underway T st = Z.min (offset (fo st)) T /\
  (truthyZ (_timeEnd st) = true <-> processed (qo st) = T) /\
  match deferred st with
  | Pending => completeCheck st = true
  | Resolved _ => doneWith T (deferred st) /\ processed (qo st) = T
  | Rejected r => r = RejTimeout
  end.

(** [tryProcess] stops only when it is told to. *)
Definition processSaturated (T : Z) (st : state) : Prop :=
  processed (qo st) = T \/ _queue st = [] \/
  processingLimit (qo st) <= _processingConcurrent st.

(** [tryFetch] stops only when it is told to. *)
Definition fetchSaturated (T L : Z) (st : state) : Prop :=
  processed (qo st) = T \/
  requestLimit (qo st) <= _requestsConcurrent st \/
  queueLimit (qo st) <= queueLength st + L * (_requestsConcurrent st + 1) \/
  (total (fo st) = Some T /\ T <= offset (fo st)).




Lemma exampleCore_of_inv (T L : Z) (st : state) :
  exampleInv T L st -> total (fo st) = Some T ->
  exampleCore T L st /\ processSaturated T st /\ fetchSaturated T L st.
Proof.
  intros Hi Ht. open_inv Hi.
  split; [|split; assumption].
  unfold exampleCore. repeat split; try assumption; apply Hte.
Qed.
















(** Three items in pages of two, one fetch and one process call at a time:
    the start, a run to completion, and the state after the first page has
    been delivered. *)
Definition threeItemsStart : state :=
  fetchAndProcess 1000 SrcFunc (mkFetchOptions 2 0 None false None 0)
    default_queueOptions.

Definition threeItemsTrace : list (Z * exampleTurn) :=
  [ (1001, Fetched O); (1002, PageDelivered O);
    (1003, Processed O); (1004, ProcessedDelivered);
    (1005, Fetched O); (1006, PageDelivered O);
    (1007, Processed O); (1008, ProcessedDelivered);
    (1010, Processed O); (1011, ProcessedDelivered); (2000, Checked) ].

Definition threeItemsEnd : state :=
  Eval vm_compute in
    match exampleRun 3 threeItemsTrace threeItemsStart with
    | Some st => st
    | None => threeItemsStart
    end.



(** The run ends with
    [{ status: "done", fetched: 3, processed: 3, time: 0.011 }] after the
    notifications of the three processed items. *)
Example three_items_from_the_source :
  exampleRun 3 threeItemsTrace threeItemsStart = Some threeItemsEnd /\
  deferred threeItemsEnd = Resolved (ResDone (mkMeta (Some 3) 3 (seconds 11))) /\
  notifications threeItemsEnd
  = [mkNotification 4 1 1; mkNotification 4 1 2; mkNotification 4 0 3].
Proof. split; [vm_compute; reflexivity|]. split; reflexivity. Qed.

(** ** Order of the items *)

(** The items the example source returns for a pending call, and the items
    a settled wrapper will deliver. *)
Definition pageItems (T : Z) (c : Z * Z) : list value :=
  snd (callAPIforData T (fst c) (snd c)).

Definition settledItems (w : settlement) : list value :=
  match w with
  | Fulfilled items => items
  | Failure _ => []
  end.

(** The items on their way to the backlog, in the order in which their
    fetches were issued when responses and deliveries come in that order:
    first those of the settled wrappers, then those of the pending calls. *)
Definition onTheWay (T : Z) (st : state) : list value :=
  concat (map settledItems (fetchWrappers st))
  ++ concat (map (pageItems T) (fetchCalls st)).

(** A turn that settles or delivers the oldest fetch. *)
Definition oldestFirst (m : exampleTurn) : Prop :=
  match m with
  | Fetched i | PageDelivered i => i = O
  | _ => True
  end.

(** The items handed to the process capability during a run against the
    example source, in order. *)
Fixpoint exampleHanded (T : Z) (tr : list (Z * exampleTurn)) (st : state)
    : list value :=
  match tr with
  | [] => []
  | (now, m) :: tr' =>
    match exampleEvent T m st with
    | Some e =>
      match step now e st with
      | Some st' => handedIn e st st' ++ exampleHanded T tr' st'
      | None => []
      end
    | None => []
    end
  end.

Lemma apiItems_O (first : Z) : apiItems first O = [].
Proof. reflexivity. Qed.

Lemma pageItems_cursors (T L o : Z) (k : nat) :
  0 < L ->
  concat (map (pageItems T) (cursors L o L k))
  = apiItems (Z.min o T)
      (Z.to_nat (Z.min (o + Z.of_nat k * L) T - Z.min o T)).
Proof.
  intros HL. revert o; induction k as [|k IH]; intros o.
  - replace (Z.to_nat (Z.min (o + Z.of_nat 0 * L) T - Z.min o T)) with O by lia.
    reflexivity.
  - rewrite cursors_S. cbn [map concat]. rewrite IH.
    unfold pageItems. cbn [fst snd]. rewrite callAPIforData_eq. cbn [snd].
    unfold pageLength.
    destruct (Z_lt_le_dec o T) as [Hlt|Hge].
    + replace (Z.min o T) with o by lia.
      replace (Z.min (o + L) T) with (o + Z.of_nat (Z.to_nat (Z.min L (T - o))))
        by lia.
      rewrite apiItems_app. f_equal. lia.
    + replace (Z.to_nat (Z.min L (T - o))) with O by lia.
      rewrite apiItems_O. simpl. f_equal; [lia|]. f_equal. lia.
Qed.

(** What a turn does to the items: those handed over, followed by the
    backlog and the items on their way afterwards, are the backlog and the
    items on their way before, followed by the pages of the fetches issued
    in the turn. *)
Definition itemsMoved (T : Z) (handed : list value) (st st' : state) : Prop :=
  limit (fo st') = limit (fo st) /\ paged (fo st') = paged (fo st) /\
  offset (fo st) <= offset (fo st') /\
  handed ++ _queue st' ++ onTheWay T st'
  = _queue st ++ onTheWay T st
    ++ apiItems (Z.min (offset (fo st)) T)
         (Z.to_nat (Z.min (offset (fo st')) T - Z.min (offset (fo st)) T)).

Lemma itemsMoved_idle (T : Z) (st st' : state) :
  _queue st' = _queue st -> onTheWay T st' = onTheWay T st ->
  limit (fo st') = limit (fo st) -> paged (fo st') = paged (fo st) ->
  offset (fo st') = offset (fo st) ->
  itemsMoved T [] st st'.
Proof.
  intros E1 E2 E3 E4 E5. unfold itemsMoved. rewrite E1, E2, E3, E4, E5.
  rewrite Z.sub_diag. simpl. rewrite apiItems_O, app_nil_r.
  repeat split; lia.
Qed.

Lemma tryProcess_items (T now : Z) (s : state) :
  exists taken : list value,
    procCalls (tryProcess now s) = procCalls s ++ taken /\
    taken ++ _queue (tryProcess now s) = _queue s /\
    onTheWay T (tryProcess now s) = onTheWay T s /\
    fo (tryProcess now s) = fo s.
Proof.
  pose proof (tryProcess_frame now s) as HP.
  destruct HP as (F1 & F2 & F3 & F4 & F5 & F6 & F7 & F8 & F9 & F10 & F11
                  & F12 & F13 & F14 & taken & Q & C & P & _).
  exists taken. unfold onTheWay. rewrite F10, F11.
  repeat split; auto.
Qed.

Lemma tryFetch_items (T L now : Z) (s : state) :
  0 < L -> limit (fo s) = L -> paged (fo s) = false ->
  procCalls (tryFetch now s) = procCalls s /\
  _queue (tryFetch now s) = _queue s /\
  limit (fo (tryFetch now s)) = L /\ paged (fo (tryFetch now s)) = false /\
  offset (fo s) <= offset (fo (tryFetch now s)) /\
  onTheWay T (tryFetch now s)
  = onTheWay T s
    ++ apiItems (Z.min (offset (fo s)) T)
         (Z.to_nat (Z.min (offset (fo (tryFetch now s))) T
                    - Z.min (offset (fo s)) T)).
Proof.
  intros HL Hlim Hpg.
  destruct (tryFetch_spec now s) as (k & E1 & E2 & _).
  pose proof (tryFetch_frame now s) as HF.
  destruct HF as (F1 & F2 & F3 & F4 & F5 & F6 & F7 & F8 & F9 & F10 & F11
                  & F12 & F13 & F14 & F15 & F16 & F17 & F18 & _).
  unfold strideOf in *. rewrite Hpg, Hlim in *.
  unfold onTheWay. rewrite E1, E2, F15, map_app, concat_app.
  rewrite (pageItems_cursors T L (offset (fo s)) k HL), <- app_assoc.
  repeat split; try assumption; try congruence. nia.
Qed.

Lemma fetch_onResponse_items (rtotal : Z) (items : list value) (s : state) :
  rtotal <> 0 ->
  fetchWrappers (fetch_onResponse rtotal items s)
  = fetchWrappers s ++ [Fulfilled items] /\
  fetchCalls (fetch_onResponse rtotal items s) = fetchCalls s /\
  procCalls (fetch_onResponse rtotal items s) = procCalls s /\
  _queue (fetch_onResponse rtotal items s) = _queue s /\
  limit (fo (fetch_onResponse rtotal items s)) = limit (fo s) /\
  paged (fo (fetch_onResponse rtotal items s)) = paged (fo s) /\
  offset (fo (fetch_onResponse rtotal items s)) = offset (fo s).
Proof.
  intros Hr.
  assert (E0 : (rtotal =? 0) = false) by lia.
  unfold fetch_onResponse. cbv zeta.
  destruct (negb (truthyZ (total (fo s))) && truthyZ (maxLimit (fo s))
            && (rtotal >? numZ (maxLimit (fo s))));
    rewrite E0, andb_false_r; case_ifs; simpl; repeat split.
Qed.

Lemma exampleStep_items (T L now : Z) (m : exampleTurn) (e : event)
    (st st' : state) :
  0 < T -> 0 < L -> limit (fo st) = L -> paged (fo st) = false ->
  oldestFirst m ->
  exampleEvent T m st = Some e -> step now e st = Some st' ->
  itemsMoved T (handedIn e st st') st st'.
Proof.
  intros HT HL Hlim Hpg Hm Hev Hs.
  destruct m as [i|i|i| |]; simpl in Hm; try subst i;
    cbn [exampleEvent] in Hev.
  - (* Fetched *)
    destruct (fetchCalls st) as [|[lim off] fcs] eqn:Efc; [discriminate|].
    change (((lim, off) :: fcs) !! O) with (Some (lim, off)) in Hev.
    cbv beta iota in Hev. rewrite callAPIforData_eq in Hev.
    cbn [fst snd] in Hev. injection Hev as <-.
    cbn [step] in Hs. rewrite Efc in Hs.
    change (((lim, off) :: fcs) !! O) with (Some (lim, off)) in Hs.
    cbv beta iota in Hs. injection Hs as <-.
    match goal with
    | |- context [fetch_onResponse ?t ?its ?s] =>
      destruct (fetch_onResponse_items t its s)
        as (R1 & R2 & R3 & R4 & R5 & R6 & R7); [lia|];
      set (s' := fetch_onResponse t its s) in *; clearbody s'
    end.
    simpl in R1, R2, R3, R4, R5, R6, R7.
    replace (handedIn _ st s') with (@nil value)
      by (unfold handedIn, procBase; rewrite R3, drop_all; reflexivity).
    apply itemsMoved_idle; try assumption.
    unfold onTheWay. rewrite R1, R2, Efc, map_app, concat_app. simpl.
    unfold pageItems at 2. cbn [fst snd]. rewrite callAPIforData_eq. cbn [snd].
    rewrite app_nil_r, <- app_assoc. reflexivity.
  - (* PageDelivered *)
    injection Hev as <-.
    cbn [step] in Hs.
    destruct (fetchWrappers st) as [|w ws] eqn:Efw; [discriminate|].
    cbn [lookup list_lookup] in Hs. destruct w as [items|reason].
    + injection Hs as <-. rewrite tryFetch_onItems_concat.
      set (s1 := set_queue _ _).
      destruct (tryProcess_items T now s1) as (taken & P1 & P2 & P3 & P4).
      set (sp := tryProcess now s1) in *.
      destruct (tryFetch_items T L now sp) as (G1 & G2 & G3 & G4 & G5 & G6);
        [exact HL | rewrite P4; exact Hlim | rewrite P4; exact Hpg |].
      set (sf := tryFetch now sp) in *. clearbody sf. clearbody sp.
      assert (Hh : handedIn (FetchDelivered O) st sf = taken).
      { unfold handedIn, procBase. rewrite G1, P1. subst s1. simpl.
        apply drop_app_length. }
      rewrite Hh. unfold itemsMoved.
      rewrite G2, G3, G4, G6, P3, P4, (app_assoc taken), P2.
      subst s1. unfold onTheWay. simpl. rewrite Efw. simpl.
      rewrite P4 in G5. simpl in G5.
      repeat split; try congruence; try lia;
        rewrite <- ?app_assoc; reflexivity.
    + injection Hs as <-.
      replace (handedIn _ st _) with (@nil value)
        by (unfold handedIn, procBase; simpl; rewrite drop_all; reflexivity).
      apply itemsMoved_idle; try reflexivity.
      unfold onTheWay. simpl. rewrite Efw. reflexivity.
  - (* Processed *)
    injection Hev as <-. cbn [step] in Hs.
    destruct (procCalls st !! i) as [item|] eqn:Ei; [|discriminate].
    injection Hs as <-. rewrite process_onSuccess_spec. cbv zeta.
    replace (handedIn _ st _) with (@nil value)
      by (unfold handedIn, procBase; case_ifs; simpl; rewrite drop_all;
          reflexivity).
    apply itemsMoved_idle; case_ifs; reflexivity.
  - (* ProcessedDelivered *)
    injection Hev as <-. cbn [step] in Hs.
    destruct (procWrappers st) as [|n] eqn:En; [discriminate|].
    injection Hs as <-. unfold tryProcess_onDone. cbv zeta.
    set (s2 := notify _ _).
    assert (E2 : procCalls s2 = procCalls st /\ _queue s2 = _queue st /\
                 fo s2 = fo st /\ onTheWay T s2 = onTheWay T st).
    { subst s2. unfold notify. simpl. destruct (deferred st); simpl; auto. }
    destruct E2 as (N1 & N2 & N3 & N4). clearbody s2.
    destruct (tryProcess_items T now s2) as (taken & P1 & P2 & P3 & P4).
    set (sp := tryProcess now s2) in *.
    match goal with
    | |- context [if ?c then _ else _] => destruct c
    end.
    + destruct (tryFetch_items T L now sp) as (G1 & G2 & G3 & G4 & G5 & G6);
        [exact HL | rewrite P4, N3; exact Hlim | rewrite P4, N3; exact Hpg |].
      set (sf := tryFetch now sp) in *. clearbody sf. clearbody sp.
      assert (Hh : handedIn ProcessDelivered st sf = taken).
      { unfold handedIn, procBase. rewrite G1, P1, N1.
        apply drop_app_length. }
      rewrite Hh. unfold itemsMoved.
      rewrite G2, G3, G4, G6, P3, P4, N3, N4, (app_assoc taken), P2, N2.
      rewrite P4, N3 in G5.
      repeat split; try congruence; try lia;
        rewrite <- ?app_assoc; reflexivity.
    + clearbody sp.
      assert (Hh : handedIn ProcessDelivered st sp = taken).
      { unfold handedIn, procBase. rewrite P1, N1. apply drop_app_length. }
      rewrite Hh. unfold itemsMoved.
      rewrite P3, P4, N3, N4, Z.sub_diag, (app_assoc taken), P2, N2.
      simpl. rewrite apiItems_O, app_nil_r.
      repeat split; try lia; rewrite <- ?app_assoc; reflexivity.
  - (* Checked *)
    injection Hev as <-. cbn [step] in Hs.
    destruct (completeCheck st); [|discriminate]. injection Hs as <-.
    replace (handedIn _ st _) with (@nil value)
      by (unfold handedIn, procBase, completeCheck_tick, resolve, reject,
            clearInterval; case_ifs; simpl; case_ifs; simpl;
          rewrite drop_all; reflexivity).
    apply itemsMoved_idle;
      unfold completeCheck_tick, resolve, reject, clearInterval, onTheWay;
      case_ifs; simpl; case_ifs; reflexivity.
Qed.

Lemma apiItems_join (a b c : Z) :
  a <= b -> b <= c ->
  apiItems a (Z.to_nat (b - a)) ++ apiItems b (Z.to_nat (c - b))
  = apiItems a (Z.to_nat (c - a)).
Proof.
  intros Hab Hbc.
  replace (apiItems b) with (apiItems (a + Z.of_nat (Z.to_nat (b - a))))
    by (f_equal; lia).
  rewrite apiItems_app. f_equal. lia.
Qed.

Lemma itemsMoved_refl (T : Z) (st : state) : itemsMoved T [] st st.
Proof. apply itemsMoved_idle; reflexivity. Qed.

Lemma itemsMoved_trans (T : Z) (h1 h2 : list value) (s1 s2 s3 : state) :
  itemsMoved T h1 s1 s2 -> itemsMoved T h2 s2 s3 ->
  itemsMoved T (h1 ++ h2) s1 s3.
Proof.
  intros (A1 & A2 & A3 & A4) (B1 & B2 & B3 & B4).
  unfold itemsMoved. repeat split; try congruence; try lia.
  rewrite <- app_assoc, B4, !app_assoc.
  rewrite <- (app_assoc h1), A4, <- !app_assoc. do 2 f_equal.
  apply apiItems_join; lia.
Qed.

(** With [requestLimit = 1] there is at most one fetch in flight, so every
    response and every delivery is that of the oldest fetch. *)
Lemma single_fetch_oldestFirst (T now : Z) (m : exampleTurn) (e : event)
    (st st' : state) :
  gated st -> requestLimit (qo st) = 1 ->
  exampleEvent T m st = Some e -> step now e st = Some st' ->
  oldestFirst m.
Proof.
  intros (Hr & _ & Hlf & _) Hrl Hev Hs.
  unfold lostFetchSlots in Hlf. rewrite Hrl in Hr.
  destruct m as [i|i|i| |]; simpl; auto; cbn [exampleEvent] in Hev.
  - destruct (fetchCalls st !! i) as [c|] eqn:Hi; [|discriminate].
    apply lookup_lt_Some in Hi. lia.
  - injection Hev as <-. cbn [step] in Hs.
    destruct (fetchWrappers st !! i) as [w|] eqn:Hi; [|discriminate].
    apply lookup_lt_Some in Hi. lia.
Qed.

(** Every turn of the trace settles or delivers the oldest fetch. *)
Definition inIssueOrder (tr : list (Z * exampleTurn)) : Prop :=
  Forall (fun nm => oldestFirst (snd nm)) tr.

Lemma exampleRun_items (T L : Z) (tr : list (Z * exampleTurn)) :
  0 < T -> 0 < L ->
  forall st st' : state,
    limit (fo st) = L -> paged (fo st) = false ->
    (gated st /\ requestLimit (qo st) = 1) \/ inIssueOrder tr ->
    exampleRun T tr st = Some st' ->
    itemsMoved T (exampleHanded T tr st) st st'.
Proof.
  intros HT HL. induction tr as [|[now m] tr IH];
    intros st st' Hlim Hpg Hord Hrun.
  - simpl in Hrun. injection Hrun as <-. apply itemsMoved_refl.
  - cbn [exampleRun] in Hrun. cbn [exampleHanded]. unfold exampleStep in Hrun.
    destruct (exampleEvent T m st) as [e|] eqn:Hev; [|discriminate].
    destruct (step now e st) as [st1|] eqn:Hs; [|discriminate].
    assert (Hm : oldestFirst m).
    { destruct Hord as [[Hg Hrl]|Hall].
      - eapply single_fetch_oldestFirst; eassumption.
      - inversion Hall; subst. assumption. }
    pose proof (exampleStep_items T L now m e st st1 HT HL Hlim Hpg Hm Hev Hs)
      as H1.
    pose proof H1 as (E1 & E2 & _).
    eapply itemsMoved_trans; [exact H1|].
    apply IH; [congruence | congruence | | exact Hrun].
    destruct Hord as [[Hg Hrl]|Hall].
    + left. split; [eapply gated_step; eassumption|].
      pose proof (step_sameConfig now e st st1 Hs) as Hc.
      unfold sameConfig in Hc. destr. congruence.
    + right. inversion Hall; subst. assumption.
Qed.

Lemma example_items_account
    (T L now : Z) (fopts : fetchOptions) (qopts : queueOptions)
    (tr : list (Z * exampleTurn)) (st : state) :
  0 < T -> 0 < L ->
  limit fopts = L -> paged fopts = false -> offset fopts = 0 ->
  requestLimit qopts = 1 \/ inIssueOrder tr ->
  exampleRun T tr (fetchAndProcess now SrcFunc fopts qopts) = Some st ->
  exampleHanded T tr (fetchAndProcess now SrcFunc fopts qopts)
    ++ _queue st ++ onTheWay T st
  = apiItems 0 (Z.to_nat (Z.min (offset (fo st)) T)).
Proof.
  intros HT HL Hlim Hpg Hoff Hord Hrun.
  set (s0 := fetchAndProcess now SrcFunc fopts qopts) in *.
  destruct (init_config now SrcFunc fopts qopts)
    as (C1 & _ & C3 & C4 & _).
  fold s0 in C1, C3, C4.
  assert (Hinit : limit (fo s0) = L /\ paged (fo s0) = false /\
                  0 <= offset (fo s0) /\
                  _queue s0 ++ onTheWay T s0
                  = apiItems 0 (Z.to_nat (Z.min (offset (fo s0)) T))).
  { subst s0. unfold fetchAndProcess. cbv zeta.
    match goal with |- context [tryFetch now ?s] => set (i0 := s) end.
    destruct (tryFetch_items T L now i0) as (_ & G2 & G3 & G4 & G5 & G6);
      [exact HL | exact Hlim | exact Hpg |].
    rewrite G2, G6. subst i0. simpl in *. rewrite Hoff in *.
    replace (Z.min 0 T) with 0 by lia.
    repeat split; try assumption. f_equal. lia. }
  destruct Hinit as (I1 & I2 & I3 & I4).
  destruct (exampleRun_items T L tr HT HL s0 st I1 I2) as (_ & _ & M3 & M4);
    [|exact Hrun|].
  { destruct Hord as [Hrl|Hall]; [left | right; exact Hall].
    split; [apply gated_init | congruence]. }
  rewrite M4, app_assoc, I4.
  replace (Z.min (offset (fo s0)) T) with (Z.min (offset (fo s0)) T - 0)
    at 1 by lia.
  rewrite apiItems_join by lia. f_equal. lia.
Qed.

(** X13.  Against the example source the items reach the process
    capability in the order of their ids, none lost and none twice.  In
    non-paged mode with a positive page size and the cursor starting at 0,
    if [requestLimit] is 1, or if responses and deliveries happen in the
    order in which the fetches were issued, then at every point of a run
    the items handed to the process capability so far, followed by the
    backlog and by the items still on their way, are the items with ids
    [0], [1], [2], ... up to the cursor or the total of the source; hence,
    once the cursor has passed the total and nothing is left in the backlog
    or on its way, the process capability has been handed every item of
    the source exactly once and in order. *)
Theorem example_items_in_order
    (T L now : Z) (fopts : fetchOptions) (qopts : queueOptions)
    (tr : list (Z * exampleTurn)) (st : state) :
  0 < T -> 0 < L ->
  limit fopts = L -> paged fopts = false -> offset fopts = 0 ->
  requestLimit qopts = 1 \/ inIssueOrder tr ->
  let s0 := fetchAndProcess now SrcFunc fopts qopts in
  exampleRun T tr s0 = Some st ->
  exampleHanded T tr s0 ++ _queue st ++ onTheWay T st
  = apiItems 0 (Z.to_nat (Z.min (offset (fo st)) T)) /\
  (T <= offset (fo st) -> _queue st = [] -> onTheWay T st = [] ->
   exampleHanded T tr s0 = apiItems 0 (Z.to_nat T)).
Proof.
  intros HT HL Hlim Hpg Hoff Hord s0 Hrun.
  pose proof (example_items_account T L now fopts qopts tr st HT HL Hlim Hpg
                Hoff Hord Hrun) as E.
  fold s0 in E. split; [exact E|].
  intros Hpast Hq Hw. rewrite Hq, Hw, !app_nil_r in E. rewrite E.
  f_equal. lia.
Qed.

Lemma example_items_in_order_witness :
  exampleHanded 3 threeItemsTrace threeItemsStart
    ++ _queue threeItemsEnd ++ onTheWay 3 threeItemsEnd
  = apiItems 0 (Z.to_nat (Z.min (offset (fo threeItemsEnd)) 3)) /\
  (3 <= offset (fo threeItemsEnd) -> _queue threeItemsEnd = [] ->
   onTheWay 3 threeItemsEnd = [] ->
   exampleHanded 3 threeItemsTrace threeItemsStart = apiItems 0 (Z.to_nat 3)).
Proof.
  apply (example_items_in_order 3 2 1000 (mkFetchOptions 2 0 None false None 0)
           default_queueOptions threeItemsTrace threeItemsEnd);
    [lia | lia | reflexivity | reflexivity | reflexivity
     | left; reflexivity | vm_compute; reflexivity].
Defined.

(** In that run the process capability was handed the items 0, 1 and 2,
    in this order. *)
Example three_items_handed :
  exampleHanded 3 threeItemsTrace threeItemsStart
  = [apiItem 0; apiItem 1; apiItem 2] /\
  _queue threeItemsEnd = [] /\ onTheWay 3 threeItemsEnd = [].
Proof. vm_compute. repeat split; reflexivity. Qed.

(** With two fetches in flight the second page may be delivered first, and
    then its items overtake those of the first page. *)
Example second_page_overtakes :
  let s0 := fetchAndProcess 1000 SrcFunc (mkFetchOptions 2 0 None false None 0)
              (mkQueueOptions 2 1 1000 15000 0 0) in
  let tr := [ (1001, Fetched O); (1002, Fetched O); (1003, PageDelivered 1%nat);
              (1004, PageDelivered O) ] in
  exists st,
    exampleRun 4 tr s0 = Some st /\
    exampleHanded 4 tr s0 ++ _queue st
    = [apiItem 2; apiItem 3; apiItem 0; apiItem 1].
Proof. eexists. split; vm_compute; reflexivity. Qed.

(** ** A resolved run has processed the whole source *)




